(** * django-voting: the vote manager of [trunk/models.py]

    A shallow embedding of [VoteManager] and of the [Vote] model, together
    with the pieces of the host it talks to: Python's string formatting,
    the relational table behind the model, the SQL statements the manager
    writes by hand, and the object-relational calls it makes. *)

From Stdlib Require Import ZArith Ascii String.
From stdpp Require Import gmap strings list sorting.

Open Scope Z_scope.

(** ** Python values, exceptions and results *)

Module Py.

(** An integer or [None]; this is also what one cell of a result row of
    the database holds (an integer or NULL). *)
Abbreviation val := (option Z).

Inductive exn : Type :=
| ValueError (msg : string)
| TypeError (msg : string)
| IndexError
| AssertionError
| DoesNotExist
| IntegrityError
| DatabaseError (msg : string).

Inductive result (A : Type) : Type :=
| Ok (a : A)
| Raise (e : exn).
Arguments Ok {A} a.
Arguments Raise {A} e.

Definition bind {A B} (m : result A) (f : A → result B) : result B :=
  match m with
  | Ok a => f a
  | Raise e => Raise e
  end.

Definition map {A B} (f : A → B) (m : result A) : result B :=
  bind m (λ a, Ok (f a)).

(** [[f(x) for x in l]], stopping at the first exception. *)
Fixpoint for_each {A B} (f : A → result B) (l : list A) : result (list B) :=
  match l with
  | [] => Ok []
  | x :: l' => bind (f x) (λ y, bind (for_each f l') (λ ys, Ok (y :: ys)))
  end.

(** [x or y] on integers and [None]: [None] and [0] are falsy. *)
Definition truthy (v : val) : bool :=
  match v with
  | Some z => negb (z =? 0)
  | None => false
  end.

Definition or (x y : val) : val := if truthy x then x else y.

(** [sep.join(parts)] *)
Fixpoint join (sep : string) (parts : list string) : string :=
  match parts with
  | [] => ""
  | [p] => p
  | p :: rest => p +:+ sep +:+ join sep rest
  end.

(** [fmt % args] for the two directives the module uses: [%s], which
    takes the next argument, and [%%], a literal percent sign. *)
Fixpoint format (fmt : string) (args : list string) : result string :=
  match fmt with
  | EmptyString =>
      match args with
      | [] => Ok EmptyString
      | _ :: _ =>
          Raise (TypeError "not all arguments converted during string formatting")
      end
  | String c rest =>
      if Ascii.eqb c "%" then
        match rest with
        | EmptyString => Raise (ValueError "incomplete format")
        | String d rest' =>
            if Ascii.eqb d "s" then
              match args with
              | [] => Raise (TypeError "not enough arguments for format string")
              | a :: args' => map (String.append a) (format rest' args')
              end
            else if Ascii.eqb d "%" then map (String "%") (format rest' args)
            else Raise (ValueError "unsupported format character")
        end
      else map (String c) (format rest args)
  end.

End Py.
Export Py.

Notation "'let!' x ':=' m 'in' k" := (Py.bind m (λ x, k))
  (at level 10, x pattern, m at level 100, k at level 200).

(** ** The votes table *)

(** One row of the table: the columns [id], [user_id], [content_type_id],
    [object_id] and [vote] of the [Vote] model. What the columns accept
    ([user] and [content_type] are foreign keys, [object_id] is a
    [PositiveIntegerField]) is [accepted] below. *)
Record Vote : Type := mkVote {
  vote_pk : Z;
  vote_user_id : Z;
  vote_content_type_id : Z;
  vote_object_id : Z;
  vote_vote : Z
}.

(** [Vote.Meta.db_table] *)
Definition db_table : string := "votes".

(** [SCORES], the choices of the [vote] column. *)
Definition SCORES : list (string * Z) := [("+1", 1); ("-1", -1)].

(** [Vote.is_upvote] and [Vote.is_downvote] *)
Definition is_upvote (v : Vote) : bool := vote_vote v =? 1.
Definition is_downvote (v : Vote) : bool := vote_vote v =? -1.

(** ** A small SQL engine

    The manager writes three SELECT statements as text.  The engine below
    reads such text the way a database does: it splits it into tokens,
    binds the parameters to the [%s] placeholders in order, parses the
    clauses and evaluates them over the rows of the table. *)

Module Sql.

Inductive token : Type :=
| TWord (w : string)      (* keyword, identifier or number *)
| TQuoted (w : string)    (* `identifier` *)
| TParam                  (* %s *)
| TVal (v : Py.val)       (* a bound parameter *)
| TLParen | TRParen | TComma | TStar | TEq | TLt | TGt
| TBad (c : ascii).

Definition in_range (lo hi : N) (c : ascii) : bool :=
  let n := N_of_ascii c in (lo <=? n)%N && (n <=? hi)%N.

Definition is_space (c : ascii) : bool :=
  let n := N_of_ascii c in
  (n =? 32)%N || (n =? 10)%N || (n =? 9)%N || (n =? 13)%N.

Definition is_digit (c : ascii) : bool := in_range 48 57 c.

Definition is_word_char (c : ascii) : bool :=
  in_range 65 90 c || in_range 97 122 c || is_digit c || Ascii.eqb c "_".

(** What the lexer is in the middle of: a word (possibly empty so far)
    or a back-quoted identifier. *)
Inductive lex_state : Type :=
| InWord (w : string)
| InQuoted (w : string).

Definition snoc (w : string) (c : ascii) : string := w +:+ String c "".

Definition flush (w : string) : list token :=
  if String.eqb w "" then [] else [TWord w].

Definition punct (c : ascii) : token :=
  if Ascii.eqb c "(" then TLParen
  else if Ascii.eqb c ")" then TRParen
  else if Ascii.eqb c "," then TComma
  else if Ascii.eqb c "*" then TStar
  else if Ascii.eqb c "=" then TEq
  else if Ascii.eqb c "<" then TLt
  else if Ascii.eqb c ">" then TGt
  else TBad c.

Fixpoint lex_go (st : lex_state) (s : string) : list token :=
  match s with
  | EmptyString =>
      match st with
      | InWord w => flush w
      | InQuoted _ => [TBad "`"]
      end
  | String c rest =>
      match st with
      | InQuoted w =>
          if Ascii.eqb c "`" then TQuoted w :: lex_go (InWord "") rest
          else lex_go (InQuoted (snoc w c)) rest
      | InWord w =>
          if is_word_char c then lex_go (InWord (snoc w c)) rest
          else if is_space c then flush w ++ lex_go (InWord "") rest
          else if Ascii.eqb c "`" then flush w ++ lex_go (InQuoted "") rest
          else if Ascii.eqb c "%" then
            match rest with
            | String d rest' =>
                if Ascii.eqb d "s" then flush w ++ TParam :: lex_go (InWord "") rest'
                else flush w ++ TBad c :: lex_go (InWord "") rest
            | EmptyString => flush w ++ [TBad c]
            end
          else flush w ++ punct c :: lex_go (InWord "") rest
      end
  end.

Definition lex (s : string) : list token := lex_go (InWord "") s.

(** Parameter binding: the i-th placeholder takes the i-th parameter. *)
Fixpoint bind (ts : list token) (params : list Py.val) : result (list token) :=
  match ts with
  | [] =>
      match params with
      | [] => Ok []
      | _ :: _ => Raise (TypeError "not all arguments converted during string formatting")
      end
  | TParam :: ts' =>
      match params with
      | [] => Raise (TypeError "not enough arguments for format string")
      | p :: params' => Py.map (cons (TVal p)) (bind ts' params')
      end
  | t :: ts' => Py.map (cons t) (bind ts' params)
  end.

(** *** Syntax *)

Inductive expr : Type :=
| ECol (c : string)
| ESum (c : string)
| ECount (c : string)
| ECountStar.

Inductive cond : Type :=
| CEq (c : string) (v : Py.val)
| CIn (c : string) (vs : list Py.val).

Inductive cmp : Type := CmpLt | CmpGt.
Inductive direction : Type := Asc | Desc.

Record query : Type := mkQuery {
  q_select : list expr;
  q_from : string;
  q_where : list cond;
  q_group : option string;
  q_having : option (expr * cmp * Py.val);
  q_order : option (expr * direction);
  q_limit : option Py.val
}.

Definition syntax_error {A} : result A :=
  Raise (DatabaseError "You have an error in your SQL syntax").

Definition keywords : list string :=
  ["SELECT"; "FROM"; "WHERE"; "AND"; "IN"; "GROUP"; "BY"; "HAVING";
   "ORDER"; "ASC"; "DESC"; "LIMIT"].

Definition is_keyword (w : string) : bool := existsb (String.eqb w) keywords.

Definition is_kw (k : string) (t : token) : bool :=
  match t with
  | TWord w => String.eqb w k
  | _ => false
  end.

(** A decimal literal. *)
Fixpoint digits (acc : Z) (w : string) : option Z :=
  match w with
  | EmptyString => Some acc
  | String c rest =>
      if is_digit c then digits (10 * acc + Z.of_N (N_of_ascii c) - 48) rest
      else None
  end.

Definition literal (t : token) : option Py.val :=
  match t with
  | TVal v => Some v
  | TWord w => if String.eqb w "" then None else Some <$> digits 0 w
  | _ => None
  end.

Definition parse_expr (ts : list token) : result (expr * list token) :=
  match ts with
  | TWord f :: TLParen :: TStar :: TRParen :: rest =>
      if String.eqb f "COUNT" then Ok (ECountStar, rest) else syntax_error
  | TWord f :: TLParen :: TWord c :: TRParen :: rest =>
      if is_keyword c then syntax_error
      else if String.eqb f "SUM" then Ok (ESum c, rest)
      else if String.eqb f "COUNT" then Ok (ECount c, rest)
      else syntax_error
  | TWord c :: rest => if is_keyword c then syntax_error else Ok (ECol c, rest)
  | _ => syntax_error
  end.

(** [expr, expr, ... FROM]: the select list, up to and including FROM. *)
Fixpoint parse_select (fuel : nat) (ts : list token) : result (list expr * list token) :=
  match fuel with
  | O => syntax_error
  | S fuel' =>
      let! (e, ts1) := parse_expr ts in
      match ts1 with
      | TComma :: ts2 =>
          let! (es, ts3) := parse_select fuel' ts2 in Ok (e :: es, ts3)
      | t :: ts2 => if is_kw "FROM" t then Ok ([e], ts2) else syntax_error
      | [] => syntax_error
      end
  end.

Definition parse_table (ts : list token) : result (string * list token) :=
  match ts with
  | TQuoted w :: rest => Ok (w, rest)
  | TWord w :: rest => if is_keyword w then syntax_error else Ok (w, rest)
  | _ => syntax_error
  end.

(** [v, v, ..., v)]: the values of an IN list, up to the closing bracket. *)
Fixpoint parse_in_list (ts : list token) : result (list Py.val * list token) :=
  match ts with
  | t :: TComma :: rest =>
      match literal t with
      | Some v => let! (vs, ts') := parse_in_list rest in Ok (v :: vs, ts')
      | None => syntax_error
      end
  | t :: TRParen :: rest =>
      match literal t with
      | Some v => Ok ([v], rest)
      | None => syntax_error
      end
  | _ => syntax_error
  end.

Definition parse_cond (ts : list token) : result (cond * list token) :=
  match ts with
  | TWord c :: TEq :: t :: rest =>
      if is_keyword c then syntax_error
      else match literal t with
           | Some v => Ok (CEq c v, rest)
           | None => syntax_error
           end
  | TWord c :: TWord k :: TLParen :: rest =>
      if is_keyword c || negb (String.eqb k "IN") then syntax_error
      else let! (vs, ts') := parse_in_list rest in Ok (CIn c vs, ts')
  | _ => syntax_error
  end.

(** [cond AND cond AND ...] *)
Fixpoint parse_conds (fuel : nat) (ts : list token) : result (list cond * list token) :=
  match fuel with
  | O => syntax_error
  | S fuel' =>
      let! (c, ts1) := parse_cond ts in
      match ts1 with
      | t :: ts2 =>
          if is_kw "AND" t then let! (cs, ts3) := parse_conds fuel' ts2 in Ok (c :: cs, ts3)
          else Ok ([c], ts1)
      | [] => Ok ([c], ts1)
      end
  end.

Definition parse_where (ts : list token) : result (list cond * list token) :=
  match ts with
  | t :: rest => if is_kw "WHERE" t then parse_conds (length rest) rest else Ok ([], ts)
  | [] => Ok ([], ts)
  end.

Definition parse_group (ts : list token) : result (option string * list token) :=
  match ts with
  | TWord g :: TWord b :: TWord c :: rest =>
      if String.eqb g "GROUP" then
        if String.eqb b "BY" && negb (is_keyword c) then Ok (Some c, rest)
        else syntax_error
      else Ok (None, ts)
  | t :: _ => if is_kw "GROUP" t then syntax_error else Ok (None, ts)
  | [] => Ok (None, ts)
  end.

Definition parse_cmp (t : token) : option cmp :=
  match t with
  | TLt => Some CmpLt
  | TGt => Some CmpGt
  | _ => None
  end.

Definition parse_having (ts : list token)
  : result (option (expr * cmp * Py.val) * list token) :=
  match ts with
  | t :: rest =>
      if is_kw "HAVING" t then
        let! (e, ts1) := parse_expr rest in
        match ts1 with
        | o :: l :: ts2 =>
            match parse_cmp o, literal l with
            | Some o', Some v => Ok (Some (e, o', v), ts2)
            | _, _ => syntax_error
            end
        | _ => syntax_error
        end
      else Ok (None, ts)
  | [] => Ok (None, ts)
  end.

Definition parse_order (ts : list token)
  : result (option (expr * direction) * list token) :=
  match ts with
  | t :: b :: rest =>
      if is_kw "ORDER" t then
        if is_kw "BY" b then
          let! (e, ts1) := parse_expr rest in
          match ts1 with
          | d :: ts2 =>
              if is_kw "ASC" d then Ok (Some (e, Asc), ts2)
              else if is_kw "DESC" d then Ok (Some (e, Desc), ts2)
              else Ok (Some (e, Asc), ts1)
          | [] => Ok (Some (e, Asc), ts1)
          end
        else syntax_error
      else Ok (None, ts)
  | t :: _ => if is_kw "ORDER" t then syntax_error else Ok (None, ts)
  | [] => Ok (None, ts)
  end.

Definition parse_limit (ts : list token) : result (option Py.val * list token) :=
  match ts with
  | t :: l :: rest =>
      if is_kw "LIMIT" t then
        match literal l with
        | Some v => Ok (Some v, rest)
        | None => syntax_error
        end
      else Ok (None, ts)
  | t :: _ => if is_kw "LIMIT" t then syntax_error else Ok (None, ts)
  | [] => Ok (None, ts)
  end.

Definition parse (ts : list token) : result query :=
  match ts with
  | t :: ts0 =>
      if is_kw "SELECT" t then
        let! (sel, ts1) := parse_select (length ts0) ts0 in
        let! (tbl, ts2) := parse_table ts1 in
        let! (whr, ts3) := parse_where ts2 in
        let! (grp, ts4) := parse_group ts3 in
        let! (hav, ts5) := parse_having ts4 in
        let! (ord, ts6) := parse_order ts5 in
        let! (lim, ts7) := parse_limit ts6 in
        match ts7 with
        | [] => Ok (mkQuery sel tbl whr grp hav ord lim)
        | _ :: _ => syntax_error
        end
      else syntax_error
  | [] => syntax_error
  end.

(** Text and parameters to a query. *)
Definition compile (sql : string) (params : list Py.val) : result query :=
  let! ts := bind (lex sql) params in parse ts.

(** *** Evaluation over the rows of the table *)

Definition unknown_column {A} : result A :=
  Raise (DatabaseError "Unknown column").

Definition column (c : string) : result (Vote → Z) :=
  if String.eqb c "id" then Ok vote_pk
  else if String.eqb c "user_id" then Ok vote_user_id
  else if String.eqb c "content_type_id" then Ok vote_content_type_id
  else if String.eqb c "object_id" then Ok vote_object_id
  else if String.eqb c "vote" then Ok vote_vote
  else unknown_column.

Definition sum_list (l : list Z) : Z := foldr Z.add 0 l.

(** SUM over no rows is NULL. *)
Definition sum_of (f : Vote → Z) (g : list Vote) : Py.val :=
  match g with
  | [] => None
  | _ :: _ => Some (sum_list (f <$> g))
  end.

Definition count_of (g : list Vote) : Py.val := Some (Z.of_nat (length g)).

(** The value of a select-list expression on one group of rows.  Every
    column of the table is NOT NULL, so COUNT(col) counts all rows. *)
Definition resolve_expr (e : expr) : result (list Vote → Py.val) :=
  match e with
  | ECol c => let! f := column c in Ok (λ g, f <$> head g)
  | ESum c => let! f := column c in Ok (sum_of f)
  | ECount c => let! _ := column c in Ok count_of
  | ECountStar => Ok count_of
  end.

(** Comparisons with NULL hold for no row. *)
Definition val_eqb (a b : Py.val) : bool :=
  match a, b with
  | Some x, Some y => x =? y
  | _, _ => false
  end.

Definition val_cmp (o : cmp) (a b : Py.val) : bool :=
  match a, b with
  | Some x, Some y =>
      match o with
      | CmpLt => x <? y
      | CmpGt => y <? x
      end
  | _, _ => false
  end.

Definition resolve_cond (c : cond) : result (Vote → bool) :=
  match c with
  | CEq c v => let! f := column c in Ok (λ r, val_eqb (Some (f r)) v)
  | CIn c vs => let! f := column c in Ok (λ r, existsb (val_eqb (Some (f r))) vs)
  end.

Definition resolve_having (h : option (expr * cmp * Py.val))
  : result (list Vote → bool) :=
  match h with
  | None => Ok (λ _, true)
  | Some (e, o, v) => let! f := resolve_expr e in Ok (λ g, val_cmp o (f g) v)
  end.

(** NULL sorts first. *)
Definition val_leb (a b : Py.val) : bool :=
  match a, b with
  | None, _ => true
  | Some _, None => false
  | Some x, Some y => x <=? y
  end.

Definition ordered (d : direction) (k : list Vote → Py.val) (g1 g2 : list Vote) : Prop :=
  match d with
  | Asc => val_leb (k g1) (k g2) = true
  | Desc => val_leb (k g2) (k g1) = true
  end.

#[global] Instance ordered_dec d k g1 g2 : Decision (ordered d k g1 g2) :=
  match d with
  | Asc => decide (val_leb (k g1) (k g2) = true)
  | Desc => decide (val_leb (k g2) (k g1) = true)
  end.

Definition resolve_order (o : option (expr * direction))
  : result (list (list Vote) → list (list Vote)) :=
  match o with
  | None => Ok (λ gs, gs)
  | Some (e, d) => let! k := resolve_expr e in Ok (merge_sort (ordered d k))
  end.

Definition resolve_limit (l : option Py.val)
  : result (list (list Vote) → list (list Vote)) :=
  match l with
  | None => Ok (λ gs, gs)
  | Some (Some n) => if n <? 0 then syntax_error else Ok (take (Z.to_nat n))
  | Some None => syntax_error
  end.

Definition is_aggregate (e : expr) : bool :=
  match e with
  | ECol _ => false
  | _ => true
  end.

(** GROUP BY: one group per distinct value of the column.  Without GROUP
    BY, a select list with an aggregate makes all rows one group (also
    when there are none), and otherwise every row is a group.  SQL leaves
    the order of the groups open, and so the order among equal keys after
    ORDER BY; here it is the one [remove_dups] and [merge_sort] give. *)
Definition resolve_group (sel : list expr) (g : option string)
  : result (list Vote → list (list Vote)) :=
  match g with
  | Some c =>
      let! k := column c in
      Ok (λ rows, (λ x, filter (λ r, k r = x) rows) <$> remove_dups (k <$> rows))
  | None =>
      if existsb is_aggregate sel then Ok (λ rows, [rows])
      else Ok (λ rows, (λ r, [r]) <$> rows)
  end.

Definition run (q : query) (rows : list Vote) : result (list (list Py.val)) :=
  if negb (String.eqb (q_from q) db_table) then
    Raise (DatabaseError "Table doesn't exist")
  else
    let! sel := for_each resolve_expr (q_select q) in
    let! whr := for_each resolve_cond (q_where q) in
    let! grp := resolve_group (q_select q) (q_group q) in
    let! hav := resolve_having (q_having q) in
    let! ord := resolve_order (q_order q) in
    let! lim := resolve_limit (q_limit q) in
    let rows1 := filter (λ r, forallb (λ p, p r) whr = true) rows in
    let groups := lim (ord (filter (λ g, hav g = true) (grp rows1))) in
    Ok ((λ g, (λ e, e g) <$> sel) <$> groups).

(** [cursor.execute(sql, params)] followed by [cursor.fetchall()]. *)
Definition execute (sql : string) (params : list Py.val) (rows : list Vote)
  : result (list (list Py.val)) :=
  let! q := compile sql params in run q rows.

End Sql.

(** ** The database and the calls the manager makes on it *)

(** What reaches the votes table, in the order it is sent. *)
Inductive db_op : Type :=
| Execute (sql : string) (params : list Py.val)
| OrmGet (user_id content_type_id object_id : Z)
| OrmFilter (content_type_id : Z) (object_ids : list Z) (user_id : Z)
| OrmInsert (row : Vote)
| OrmUpdate (row : Vote)
| OrmDelete (pk : Z).

Record World : Type := mkWorld {
  rows : list Vote;          (* the table *)
  next_pk : Z;               (* the next value of the [id] sequence *)
  log : list db_op;          (* statements sent so far *)
  users : list Z             (* the ids of the rows of the users table *)
}.

(** A computation that reads and changes the database and returns a value
    or raises. An exception keeps the changes made before it. *)
Definition M (A : Type) : Type := World → result A * World.

Definition ret {A} (a : A) : M A := λ w, (Ok a, w).
Definition raise {A} (e : exn) : M A := λ w, (Raise e, w).
Definition lift {A} (r : result A) : M A := λ w, (r, w).

Definition bindM {A B} (m : M A) (f : A → M B) : M B := λ w,
  match m w with
  | (Ok a, w') => f a w'
  | (Raise e, w') => (Raise e, w')
  end.

Notation "'let*' x ':=' m 'in' k" := (bindM m (λ x, k))
  (at level 10, x pattern, m at level 100, k at level 200).

(** [try: body except E: handler]; [handler e] is [None] for an exception
    the clause does not name. *)
Definition try_except {A} (body : M A) (handler : exn → option (M A)) : M A := λ w,
  match body w with
  | (Ok a, w') => (Ok a, w')
  | (Raise e, w') =>
      match handler e with
      | Some h => h w'
      | None => (Raise e, w')
      end
  end.

Definition record (op : db_op) : M unit := λ w,
  (Ok tt, mkWorld (rows w) (next_pk w) (log w ++ [op]) (users w)).

(** What the columns of the table accept of a row: [object_id] is a
    [PositiveIntegerField], so it is not negative, and [user] is a
    [ForeignKey(User)], so [user_id] is the id of a row of the users table.
    The third reference, [content_type], always holds: its id comes from
    [ContentType.objects.get_for_model], which returns a row of the content
    types table and creates it when there is none. *)
Definition accepted (w : World) (v : Vote) : Prop :=
  0 ≤ vote_object_id v ∧ vote_user_id v ∈ users w.

#[global] Instance accepted_dec w v : Decision (accepted w v) :=
  decide (0 ≤ vote_object_id v ∧ vote_user_id v ∈ users w).

(** The key of the [unique_together] constraint. *)
Definition vote_key (v : Vote) : Z * Z * Z :=
  (vote_user_id v, vote_content_type_id v, vote_object_id v).

(** [self.get(user=user, content_type=ctype, object_id=id)]: the single
    matching row; [DoesNotExist] when there is none, an assertion failure
    when there are several. *)
Definition orm_get (user_id ctype object_id : Z) : M Vote :=
  let* _ := record (OrmGet user_id ctype object_id) in
  λ w,
    match filter (λ v, vote_key v = (user_id, ctype, object_id)) (rows w) with
    | [] => (Raise DoesNotExist, w)
    | [v] => (Ok v, w)
    | _ :: _ :: _ => (Raise AssertionError, w)
    end.

(** [self.filter(content_type__pk=ctype, object_id__in=ids, user__pk=user)] *)
Definition orm_filter (ctype : Z) (ids : list Z) (user_id : Z) : M (list Vote) :=
  let* _ := record (OrmFilter ctype ids user_id) in
  λ w,
    (Ok (filter (λ v, vote_content_type_id v = ctype
                      ∧ vote_object_id v ∈ ids
                      ∧ vote_user_id v = user_id) (rows w)), w).

(** [v.delete()] *)
Definition orm_delete (v : Vote) : M unit :=
  let* _ := record (OrmDelete (vote_pk v)) in
  λ w,
    (Ok tt, mkWorld (filter (λ r, vote_pk r ≠ vote_pk v) (rows w)) (next_pk w) (log w)
                    (users w)).

(** [v.save()] on a row that has a primary key: the row of that key is
    overwritten, or the row is added when the key is not in the table; the
    table refuses a row whose [unique_together] key another row has, and a
    row its columns do not accept. *)
Definition orm_save (v : Vote) : M unit :=
  let* _ := record (OrmUpdate v) in
  λ w,
    if decide (Exists (λ r, vote_pk r ≠ vote_pk v ∧ vote_key r = vote_key v) (rows w)
               ∨ ¬ accepted w v)
    then (Raise IntegrityError, w)
    else if decide (Exists (λ r, vote_pk r = vote_pk v) (rows w))
    then (Ok tt, mkWorld ((λ r, if decide (vote_pk r = vote_pk v) then v else r) <$> rows w)
                         (next_pk w) (log w) (users w))
    else (Ok tt, mkWorld (rows w ++ [v]) (next_pk w) (log w) (users w)).

(** [self.create(user=..., content_type=..., object_id=..., vote=...)]: a
    new row with the next primary key. The table refuses it, and nothing is
    stored, when the key is taken or when its columns do not accept the
    row: a negative object id, or a user without a row. *)
Definition orm_create (user_id ctype object_id vote : Z) : M Vote := λ w,
  let v := mkVote (next_pk w) user_id ctype object_id vote in
  bindM (record (OrmInsert v)) (λ _ w',
    if decide (Exists (λ r, vote_key r = vote_key v) (rows w') ∨ ¬ accepted w' v)
    then (Raise IntegrityError, w')
    else (Ok v, mkWorld (rows w' ++ [v]) (next_pk w' + 1) (log w') (users w'))) w.

(** [cursor.execute(sql, params)] and [cursor.fetchall()] *)
Definition cursor_execute (sql : string) (params : list Py.val) : M (list (list Py.val)) :=
  let* _ := record (Execute sql params) in
  λ w, (Sql.execute sql params (rows w), w).

(** [backend.quote_name(name)] of the back-quoting backend: a name that is
    quoted already is left alone. *)
Definition startswith (s p : string) : bool := String.prefix p s.

Definition endswith (s p : string) : bool :=
  String.prefix (String.rev p) (String.rev s).

Definition quote_name (name : string) : string :=
  if startswith name "`" && endswith name "`" then name
  else "`" +:+ name +:+ "`".

(** [l[i]] *)
Definition index {A} (l : list A) (i : nat) : result A :=
  match l !! i with
  | Some x => Ok x
  | None => Raise IndexError
  end.

(** [dict(pairs)]: a later pair replaces an earlier one of the same key. *)
Definition dict `{Countable K} {V} (pairs : list (K * V)) : gmap K V :=
  foldl (λ m kv, <[kv.1 := kv.2]> m) ∅ pairs.

(** ** The host's objects and users *)

(** A voted-upon object: the id of its model's content type, which
    [ContentType.objects.get_for_model] returns, and its own id. *)
Record Obj : Type := mkObj {
  obj_content_type : Z;
  obj_id : Z
}.

(** A user: its id and what [is_authenticated()] answers.  The manager
    reads nothing else of a user; the two are independent, as the host
    defines both. *)
Record User : Type := mkUser {
  user_id : Z;
  is_authenticated : bool
}.

Definition get_for_model (obj : Obj) : Z := obj_content_type obj.

(** ** VoteManager *)

(** The dictionary [{'score': ..., 'num_votes': ...}]. *)
Record Score : Type := mkScore {
  score : Py.val;
  num_votes : Py.val
}.

Definition get_score_template : string := "
SELECT SUM(vote), COUNT(*)
FROM %s
WHERE content_type_id = %%s
  AND object_id = %%s".

Definition get_score (obj : Obj) : M Score :=
  let* query := lift (Py.format get_score_template [quote_name db_table]) in
  let ctype := get_for_model obj in
  let* fetched := cursor_execute query [Some ctype; Some (obj_id obj)] in
  let* result := lift (index fetched 0) in
  let* sum := lift (index result 0) in
  let* count := lift (index result 1) in
  ret (mkScore (Py.or sum (Some 0)) count).

Definition get_scores_in_bulk_template : string := "
SELECT object_id, SUM(vote), COUNT(vote)
FROM %s
WHERE content_type_id = %%s
  AND object_id IN (%s)
GROUP BY object_id".

(** [for object_id, score, num_votes in results] *)
Definition unpack3 (row : list Py.val) : result (Py.val * Py.val * Py.val) :=
  match row with
  | [a; b; c] => Ok (a, b, c)
  | _ => Raise (ValueError "wrong number of values to unpack")
  end.

Definition get_scores_in_bulk (objects : list Obj) : M (gmap Py.val Score) :=
  let* query := lift (Py.format get_scores_in_bulk_template
                        [quote_name db_table;
                         Py.join "," (replicate (length objects) "%s")]) in
  let* first := lift (index objects 0) in
  let ctype := get_for_model first in
  let* results := cursor_execute query (Some ctype :: (Some ∘ obj_id <$> objects)) in
  let* triples := lift (Py.for_each unpack3 results) in
  ret (dict ((λ t, match t with
                   | (object_id, score, num_votes) =>
                       (object_id, mkScore score num_votes)
                   end) <$> triples)).

Definition is_valid_vote (vote : Z) : bool := bool_decide (vote ∈ [1; 0; -1]).

Definition record_vote (obj : Obj) (user : User) (vote : Z) : M unit :=
  if negb (is_valid_vote vote) then
    raise (ValueError "Invalid vote (must be +1/0/-1)")
  else
    let ctype := get_for_model obj in
    try_except
      (let* v := orm_get (user_id user) ctype (obj_id obj) in
       if vote =? 0 then orm_delete v
       else orm_save (mkVote (vote_pk v) (vote_user_id v) (vote_content_type_id v)
                             (vote_object_id v) vote))
      (λ e, match e with
            | DoesNotExist =>
                Some (if negb (vote =? 0) then
                        let* _ := orm_create (user_id user) ctype (obj_id obj) vote in
                        ret tt
                      else ret tt)
            | _ => None
            end).

Definition get_top_template : string := "
SELECT object_id, SUM(vote)
FROM %s
WHERE content_type_id = %%s
GROUP BY object_id".

(** [for id, score in results] *)
Definition unpack2 (row : list Py.val) : result (Py.val * Py.val) :=
  match row with
  | [a; b] => Ok (a, b)
  | _ => Raise (ValueError "wrong number of values to unpack")
  end.

(** The loop at the end of [get_top]: a pair for every id the resolver
    found, in the order of the results. *)
Fixpoint resolved (objects : gmap Py.val Obj) (results : list (Py.val * Py.val))
  : list (Obj * Py.val) :=
  match results with
  | [] => []
  | (id, score) :: rest =>
      match objects !! id with
      | Some o => (o, score) :: resolved objects rest
      | None => resolved objects rest
      end
  end.

Section Resolver.

(** [Model.objects.in_bulk(ids)] of the host: the objects of a model
    that exist, by id. *)
Variable in_bulk : Z → list Py.val → gmap Py.val Obj.

(** The body of [get_top] with the statement text as an argument. *)
Definition ranked (query : string) (Model : Z) (limit : Z) : M (list (Obj * Py.val)) :=
  let ctype := Model in
  let* fetched := cursor_execute query [Some ctype; Some limit] in
  let* results := lift (Py.for_each unpack2 fetched) in
  let objects := in_bulk Model (fst <$> results) in
  ret (resolved objects results).

(** [get_top] is a generator; this is what iterating it to the end
    gives: the pairs it yields, or the exception that ends it. *)
Definition get_top (Model : Z) (limit : Z) (reversed : bool) : M (list (Obj * Py.val)) :=
  let* query := lift (Py.format get_top_template [quote_name db_table]) in
  let query :=
    if reversed then query +:+ "HAVING SUM(vote) < 0 ORDER BY SUM(vote) ASC LIMIT %s"
    else query +:+ "HAVING SUM(vote) > 0 ORDER BY SUM(vote) DESC LIMIT %s" in
  ranked query Model limit.

Definition get_bottom (Model : Z) (limit : Z) : M (list (Obj * Py.val)) :=
  get_top Model limit true.

End Resolver.

Definition get_for_user (obj : Obj) (user : User) : M (option Vote) :=
  if negb (is_authenticated user) then ret None
  else
    let ctype := get_for_model obj in
    try_except
      (let* vote := orm_get (user_id user) ctype (obj_id obj) in ret (Some vote))
      (λ e, match e with
            | DoesNotExist => Some (ret None)
            | _ => None
            end).

Definition get_for_user_in_bulk (objects : list Obj) (user : User) : M (gmap Z Vote) :=
  if (0 <? length objects)%nat then
    let* first := lift (index objects 0) in
    let ctype := get_for_model first in
    let* votes := orm_filter ctype (obj_id <$> objects) (user_id user) in
    ret (dict ((λ vote, (vote_object_id vote, vote)) <$> votes))
  else ret ∅.

(** ** Vocabulary of the statements proved below *)

(** The world after one more statement has been sent. *)
Definition logged (w : World) (op : db_op) : World :=
  mkWorld (rows w) (next_pk w) (log w ++ [op]) (users w).

(** What the database itself enforces on the table: the primary key is
    unique and was issued by the sequence, [unique_together] holds, and
    every row is one the columns accept (no negative object id, no user
    without a row). *)
Record consistent (w : World) : Prop := mkConsistent {
  pk_unique : NoDup (vote_pk <$> rows w);
  pk_issued : Forall (λ r, vote_pk r < next_pk w) (rows w);
  unique_together : NoDup (vote_key <$> rows w);
  columns_accept : Forall (accepted w) (rows w)
}.

(** The key under which a user's vote on an object is stored. *)
Definition key_of (obj : Obj) (user : User) : Z * Z * Z :=
  (user_id user, get_for_model obj, obj_id obj).

(** The table can hold a vote of this user on this object: the id of the
    object is not negative and the user has a row in the users table. *)
Definition storable (w : World) (obj : Obj) (user : User) : Prop :=
  0 ≤ obj_id obj ∧ user_id user ∈ users w.

#[global] Instance storable_dec w obj user : Decision (storable w obj user) :=
  decide (0 ≤ obj_id obj ∧ user_id user ∈ users w).

(** The rows of one (user, content type, object) key. *)
Definition votes_by (k : Z * Z * Z) (rs : list Vote) : list Vote :=
  filter (λ v, vote_key v = k) rs.

(** The rows on one object. *)
Definition votes_on (c o : Z) (rs : list Vote) : list Vote :=
  filter (λ v, vote_content_type_id v = c ∧ vote_object_id v = o) rs.

(** The rows of one content type on objects of the given ids. *)
Definition votes_among (c : Z) (ids : list Z) (rs : list Vote) : list Vote :=
  filter (λ v, vote_content_type_id v = c ∧ vote_object_id v ∈ ids) rs.

(** The rows that [get_for_user_in_bulk] asks for. *)
Definition votes_of_user (c : Z) (ids : list Z) (u : Z) (rs : list Vote) : list Vote :=
  filter (λ v, vote_content_type_id v = c ∧ vote_object_id v ∈ ids ∧ vote_user_id v = u) rs.

Definition set_vote (v : Vote) (vote : Z) : Vote :=
  mkVote (vote_pk v) (vote_user_id v) (vote_content_type_id v) (vote_object_id v) vote.

(** The table after one accepted call of [record_vote] that the table does
    not refuse, by the four cases of the call. *)
Definition after_vote (k : Z * Z * Z) (vote : Z) (w : World) : list Vote :=
  match votes_by k (rows w) with
  | [] =>
      if vote =? 0 then rows w
      else rows w ++ [mkVote (next_pk w) k.1.1 k.1.2 k.2 vote]
  | _ :: _ =>
      if vote =? 0 then filter (λ r, vote_key r ≠ k) (rows w)
      else (λ r, if decide (vote_key r = k) then set_vote r vote else r) <$> rows w
  end.

Definition after_vote_pk (k : Z * Z * Z) (vote : Z) (w : World) : Z :=
  match votes_by k (rows w) with
  | [] => if vote =? 0 then next_pk w else next_pk w + 1
  | _ :: _ => next_pk w
  end.

(** Calls of [record_vote] by one user on one object, one after the other. *)
Fixpoint record_votes (obj : Obj) (user : User) (votes : list Z) : M unit :=
  match votes with
  | [] => ret tt
  | vote :: rest => let* _ := record_vote obj user vote in record_votes obj user rest
  end.

(** Sum and count of some rows, as a score dictionary. *)
Definition score_of (votes : list Vote) : Score :=
  mkScore (Sql.sum_of vote_vote votes) (Sql.count_of votes).

(** *** The statements as the database receives them *)

Definition get_score_sql : string := "
SELECT SUM(vote), COUNT(*)
FROM `votes`
WHERE content_type_id = %s
  AND object_id = %s".

Definition get_score_query (c o : Z) : Sql.query :=
  Sql.mkQuery [Sql.ESum "vote"; Sql.ECountStar] "votes"
    [Sql.CEq "content_type_id" (Some c); Sql.CEq "object_id" (Some o)]
    None None None None.

Definition bulk_head : string := "
SELECT object_id, SUM(vote), COUNT(vote)
FROM `votes`
WHERE content_type_id = %s
  AND object_id IN (".

Definition bulk_tail : string := ")
GROUP BY object_id".

(** ['%s,%s,...,%s'] *)
Definition placeholders (n : nat) : string := Py.join "," (replicate n "%s"%string).

Definition bulk_sql (n : nat) : string :=
  bulk_head +:+ placeholders n +:+ bulk_tail.

(** [t, t, ..., t]: the tokens of a comma-separated list. *)
Definition comma_list (ts : list Sql.token) : list Sql.token :=
  match ts with
  | [] => []
  | t :: rest => t :: (rest ≫= λ t', [Sql.TComma; t'])
  end.

Definition bulk_head_tokens (v : Sql.token) : list Sql.token :=
  [Sql.TWord "SELECT"; Sql.TWord "object_id"; Sql.TComma; Sql.TWord "SUM"; Sql.TLParen;
   Sql.TWord "vote"; Sql.TRParen; Sql.TComma; Sql.TWord "COUNT"; Sql.TLParen;
   Sql.TWord "vote"; Sql.TRParen; Sql.TWord "FROM"; Sql.TQuoted "votes";
   Sql.TWord "WHERE"; Sql.TWord "content_type_id"; Sql.TEq; v; Sql.TWord "AND";
   Sql.TWord "object_id"; Sql.TWord "IN"; Sql.TLParen].

Definition bulk_tail_tokens : list Sql.token :=
  [Sql.TRParen; Sql.TWord "GROUP"; Sql.TWord "BY"; Sql.TWord "object_id"].

Definition bulk_query (c : Z) (ids : list Z) : Sql.query :=
  Sql.mkQuery [Sql.ECol "object_id"; Sql.ESum "vote"; Sql.ECount "vote"] "votes"
    [Sql.CEq "content_type_id" (Some c); Sql.CIn "object_id" (Some <$> ids)]
    (Some "object_id") None None None.

(** The dictionary [get_scores_in_bulk] builds from the rows of its
    statement. *)
Definition bulk_scores (c : Z) (ids : list Z) (rs : list Vote) : gmap Py.val Score :=
  dict ((λ x, (Some x, score_of (filter (λ r, vote_object_id r = x) (votes_among c ids rs))))
        <$> remove_dups (vote_object_id <$> votes_among c ids rs)).

(** The formatted template of [get_top], before a clause is added. *)
Definition get_top_head : string := "
SELECT object_id, SUM(vote)
FROM `votes`
WHERE content_type_id = %s
GROUP BY object_id".

(** The text [get_top] sends: nothing separates [object_id] from
    [HAVING]. *)
Definition get_top_sql (reversed : bool) : string :=
  if reversed then "
SELECT object_id, SUM(vote)
FROM `votes`
WHERE content_type_id = %s
GROUP BY object_idHAVING SUM(vote) < 0 ORDER BY SUM(vote) ASC LIMIT %s"
  else "
SELECT object_id, SUM(vote)
FROM `votes`
WHERE content_type_id = %s
GROUP BY object_idHAVING SUM(vote) > 0 ORDER BY SUM(vote) DESC LIMIT %s".

(** The same text with a blank before [HAVING]. *)
Definition spaced_sql (reversed : bool) : string :=
  if reversed then "
SELECT object_id, SUM(vote)
FROM `votes`
WHERE content_type_id = %s
GROUP BY object_id HAVING SUM(vote) < 0 ORDER BY SUM(vote) ASC LIMIT %s"
  else "
SELECT object_id, SUM(vote)
FROM `votes`
WHERE content_type_id = %s
GROUP BY object_id HAVING SUM(vote) > 0 ORDER BY SUM(vote) DESC LIMIT %s".

(** *** What a well-formed ranking statement returns *)

Definition spaced_query (reversed : bool) (c limit : Z) : Sql.query :=
  Sql.mkQuery [Sql.ECol "object_id"; Sql.ESum "vote"] "votes"
    [Sql.CEq "content_type_id" (Some c)]
    (Some "object_id")
    (Some (Sql.ESum "vote", if reversed then Sql.CmpLt else Sql.CmpGt, Some 0))
    (Some (Sql.ESum "vote", if reversed then Sql.Asc else Sql.Desc))
    (Some (Some limit)).

(** The sum of the votes on an object. *)
Definition total (c x : Z) (rs : list Vote) : Z :=
  Sql.sum_list (vote_vote <$> votes_on c x rs).

(** The ids of the objects of a kind that have votes. *)
Definition voted_ids (c : Z) (rs : list Vote) : list Z :=
  remove_dups (vote_object_id <$> filter (λ r, vote_content_type_id r = c) rs).

(** The groups of a ranking statement: the votes on each such object. *)
Definition kind_groups (c : Z) (rs : list Vote) : list (list Vote) :=
  (λ x, votes_on c x rs) <$> voted_ids c rs.

(** The groups a well-formed ranking statement returns, in order. *)
Definition ranked_groups (reversed : bool) (c limit : Z) (rs : list Vote)
  : list (list Vote) :=
  take (Z.to_nat limit)
    (merge_sort (Sql.ordered (if reversed then Sql.Asc else Sql.Desc) (Sql.sum_of vote_vote))
       (filter (λ g, Sql.val_cmp (if reversed then Sql.CmpLt else Sql.CmpGt)
                       (Sql.sum_of vote_vote g) (Some 0) = true)
          (kind_groups c rs))).

Definition ranking (reversed : bool) (c limit : Z) (rs : list Vote)
  : list (Py.val * Py.val) :=
  (λ g, (vote_object_id <$> head g, Sql.sum_of vote_vote g))
  <$> ranked_groups reversed c limit rs.

(** Whether a sum is on the side a ranking keeps, and whether one sum may
    come before another. *)
Definition on_side (reversed : bool) (z : Z) : Prop :=
  if reversed then z < 0 else 0 < z.

#[global] Instance on_side_dec reversed z : Decision (on_side reversed z) :=
  match reversed with
  | true => decide (z < 0)
  | false => decide (0 < z)
  end.

Definition before (reversed : bool) (s1 s2 : Py.val) : Prop :=
  if reversed then Sql.val_leb s1 s2 = true else Sql.val_leb s2 s1 = true.

(** *** Tables that calls of [record_vote] produce *)

(** Every stored value is +1 or -1. *)
Definition unit_votes (rs : list Vote) : Prop :=
  Forall (λ r, vote_vote r = 1 ∨ vote_vote r = -1) rs.

(** The table before any call, beside a users table with rows of the
    given ids. *)
Definition empty_world (ids : list Z) : World := mkWorld [] 1 [] ids.

(** Calls of [record_vote] by any users on any objects, one after the
    other; a caller that carries on after a rejected call. *)
Fixpoint after_calls (calls : list (Obj * User * Z)) (w : World) : World :=
  match calls with
  | [] => w
  | (obj, user, vote) :: rest => after_calls rest (snd (record_vote obj user vote w))
  end.

(** The value a user has stored on an object, 0 when there is none. *)
Definition stored_vote (k : Z * Z * Z) (rs : list Vote) : Z :=
  match votes_by k rs with
  | [] => 0
  | v :: _ => vote_vote v
  end.

(** The numbers of up-votes and of down-votes among some rows. *)
Definition upvotes (rs : list Vote) : Z :=
  Z.of_nat (length (filter (λ r, is_upvote r = true) rs)).

Definition downvotes (rs : list Vote) : Z :=
  Z.of_nat (length (filter (λ r, is_downvote r = true) rs)).

(** The table of one world is that of another: the same rows and the same
    sequence. *)
Definition same_table (w' w : World) : Prop :=
  rows w' = rows w ∧ next_pk w' = next_pk w.

(** *** A table to run things on

    Objects A, B, C and D of content type 3, with vote sums 5, -3, 2 and
    0, and an object of content type 4 that shares its id with A; the
    users table has rows for the users 1 to 5. *)

Definition A : Obj := mkObj 3 1.
Definition B : Obj := mkObj 3 2.
Definition C : Obj := mkObj 3 3.
Definition D : Obj := mkObj 3 4.
Definition E : Obj := mkObj 4 1.

Definition example_rows : list Vote :=
  [mkVote 1 1 3 1 1; mkVote 2 2 3 1 1; mkVote 3 3 3 1 1; mkVote 4 4 3 1 1;
   mkVote 5 5 3 1 1;
   mkVote 6 1 3 2 (-1); mkVote 7 2 3 2 (-1); mkVote 8 3 3 2 (-1);
   mkVote 9 1 3 3 1; mkVote 10 2 3 3 1;
   mkVote 11 1 3 4 1; mkVote 12 2 3 4 (-1)].

Definition example_world : World := mkWorld example_rows 13 [] [1; 2; 3; 4; 5].

(** A resolver for which B no longer exists. *)
Definition without_B (Model : Z) (ids : list Py.val) : gmap Py.val Obj :=
  if Model =? 3 then dict [(Some 1, A); (Some 3, C); (Some 4, D)] else ∅.

(** A resolver that finds every object. *)
Definition all_objects (Model : Z) (ids : list Py.val) : gmap Py.val Obj :=
  if Model =? 3 then dict [(Some 1, A); (Some 2, B); (Some 3, C); (Some 4, D)] else ∅.

Definition anonymous (id : Z) : User := mkUser id false.
Definition member (id : Z) : User := mkUser id true.

(** * Properties *)

(** ** Lists, filters and dictionaries *)

Lemma filter_in_ext {A} (P Q : A → Prop) `{∀ x, Decision (P x)} `{∀ x, Decision (Q x)}
    (l : list A) :
  (∀ x, x ∈ l → P x ↔ Q x) → filter P l = filter Q l.
Proof.
  induction l as [|a l IH]; intros Hpq; [done|].
  rewrite !filter_cons.
  assert (Ha : P a ↔ Q a) by (apply Hpq; left).
  rewrite IH by (intros x Hx; apply Hpq; by right).
  destruct (decide (P a)), (decide (Q a)); tauto.
Qed.

Lemma filter_all {A} (P : A → Prop) `{∀ x, Decision (P x)} (l : list A) :
  (∀ x, P x) → filter P l = l.
Proof.
  intros HP. induction l as [|a l IH]; [done|].
  rewrite filter_cons, decide_True by done. by rewrite IH.
Qed.

Section Keyed.
Context {A K : Type} `{EqDecision K} (f : A → K).

(** On a list without two elements of the same key, the key names the
    element. *)
Lemma NoDup_fmap_inj_on (l : list A) x y :
  NoDup (f <$> l) → x ∈ l → y ∈ l → f x = f y → x = y.
Proof.
  induction l as [|a l IH]; intros Hnd Hx Hy Hf.
  - inversion Hx.
  - rewrite fmap_cons in Hnd. apply NoDup_cons in Hnd as [Hnotin Hnd].
    apply elem_of_cons in Hx as [->|Hx]; apply elem_of_cons in Hy as [->|Hy].
    + reflexivity.
    + exfalso. apply Hnotin. rewrite Hf. by apply list_elem_of_fmap_2.
    + exfalso. apply Hnotin. rewrite <- Hf. by apply list_elem_of_fmap_2.
    + by apply IH.
Qed.

Lemma NoDup_fmap_filter (P : A → Prop) `{∀ x, Decision (P x)} (l : list A) :
  NoDup (f <$> l) → NoDup (f <$> filter P l).
Proof.
  intros Hnd. eapply sublist_NoDup; [exact Hnd|].
  apply fmap_sublist, sublist_filter.
Qed.

Lemma filter_key_nil (l : list A) k :
  k ∉ f <$> l → filter (λ x, f x = k) l = [].
Proof.
  induction l as [|a l IH]; intros Hk; [done|].
  rewrite fmap_cons, not_elem_of_cons in Hk. destruct Hk as [Hne Hk].
  rewrite filter_cons. destruct (decide (f a = k)); [congruence|]. by apply IH.
Qed.

Lemma filter_key_unique (l : list A) v :
  NoDup (f <$> l) → v ∈ l → filter (λ x, f x = f v) l = [v].
Proof.
  induction l as [|a l IH]; intros Hnd Hv; [inversion Hv|].
  rewrite fmap_cons in Hnd. apply NoDup_cons in Hnd as [Hnotin Hnd].
  rewrite filter_cons. apply elem_of_cons in Hv as [->|Hv].
  - rewrite decide_True by done. f_equal. by apply filter_key_nil.
  - rewrite decide_False.
    + by apply IH.
    + intros E. apply Hnotin. rewrite E. by apply list_elem_of_fmap_2.
Qed.

Lemma filter_key_cases (l : list A) k :
  NoDup (f <$> l) →
  filter (λ x, f x = k) l = [] ∨ ∃ v, v ∈ l ∧ f v = k ∧ filter (λ x, f x = k) l = [v].
Proof.
  intros Hnd. destruct (decide (k ∈ f <$> l)) as [Hin|Hnotin].
  - right. apply list_elem_of_fmap in Hin as (v & -> & Hv).
    exists v. split_and!; [done|done|]. by apply filter_key_unique.
  - left. by apply filter_key_nil.
Qed.

Lemma head_filter_key (l : list A) x :
  x ∈ f <$> l → f <$> head (filter (λ r, f r = x) l) = Some x.
Proof.
  induction l as [|a l IH]; intros Hx; [inversion Hx|].
  rewrite filter_cons. destruct (decide (f a = x)) as [E|E].
  - cbn. by rewrite E.
  - apply IH. rewrite fmap_cons in Hx. apply elem_of_cons in Hx as [->|Hx]; done.
Qed.
End Keyed.

Section Dict.
Context `{Countable K} {V : Type}.

Lemma dict_snoc (l : list (K * V)) k v :
  dict (l ++ [(k, v)]) = <[k := v]> (dict l).
Proof. unfold dict. by rewrite foldl_app. Qed.

(** A key of [dict] holds the value of its last pair. *)
Lemma dict_lookup {A} (kf : A → K) (vf : A → V) (l : list A) k :
  dict ((λ x, (kf x, vf x)) <$> l) !! k = vf <$> last (filter (λ x, kf x = k) l).
Proof.
  induction l as [|a l IH] using rev_ind; [done|].
  rewrite fmap_app, fmap_cons, fmap_nil, dict_snoc, filter_app, filter_cons, filter_nil.
  destruct (decide (kf a = k)) as [<-|E].
  - by rewrite lookup_insert_eq, last_snoc.
  - by rewrite lookup_insert_ne, app_nil_r.
Qed.
End Dict.

Lemma for_each_fmap {A B C} (g : B → result C) (h : A → B) (k : A → C) (l : list A) :
  (∀ x, g (h x) = Ok (k x)) → Py.for_each g (h <$> l) = Ok (k <$> l).
Proof.
  intros Hg. induction l as [|a l IH]; [done|].
  rewrite !fmap_cons. cbn [Py.for_each]. rewrite Hg, IH. reflexivity.
Qed.

(** ** What each call on the database returns *)

Lemma bindM_eq {A B} (m : M A) (f : A → M B) w :
  bindM m f w = match m w with
                | (Ok a, w') => f a w'
                | (Raise e, w') => (Raise e, w')
                end.
Proof. reflexivity. Qed.

Lemma try_except_eq {A} (body : M A) handler w :
  try_except body handler w
  = match body w with
    | (Ok a, w') => (Ok a, w')
    | (Raise e, w') =>
        match handler e with
        | Some h => h w'
        | None => (Raise e, w')
        end
    end.
Proof. reflexivity. Qed.

Lemma lift_eq {A} (r : result A) w : lift r w = (r, w).
Proof. reflexivity. Qed.

Lemma cursor_execute_eq sql params w :
  cursor_execute sql params w
  = (Sql.execute sql params (rows w), logged w (Execute sql params)).
Proof. reflexivity. Qed.

Lemma orm_get_eq u c o w :
  orm_get u c o w
  = match votes_by (u, c, o) (rows w) with
    | [] => (Raise DoesNotExist, logged w (OrmGet u c o))
    | [v] => (Ok v, logged w (OrmGet u c o))
    | _ :: _ :: _ => (Raise AssertionError, logged w (OrmGet u c o))
    end.
Proof. reflexivity. Qed.

Lemma orm_filter_eq c ids u w :
  orm_filter c ids u w = (Ok (votes_of_user c ids u (rows w)), logged w (OrmFilter c ids u)).
Proof. reflexivity. Qed.

(** One step of a computation in the monad: the first call of a sequence
    is replaced by what it returns. *)
Ltac step :=
  rewrite bindM_eq;
  first [ rewrite lift_eq | rewrite cursor_execute_eq | rewrite orm_get_eq
        | rewrite orm_filter_eq ].

(** ** The three statements, from text to rows *)

Section Statements.
Import Sql.

(** *** [get_score] *)

Lemma get_score_text :
  Py.format get_score_template [quote_name db_table] = Ok get_score_sql.
Proof. vm_compute. reflexivity. Qed.

Lemma get_score_compile c o :
  compile get_score_sql [Some c; Some o] = Ok (get_score_query c o).
Proof. vm_compute. reflexivity. Qed.

Lemma get_score_run c o rs :
  run (get_score_query c o) rs
  = Ok [[sum_of vote_vote (votes_on c o rs); count_of (votes_on c o rs)]].
Proof.
  unfold run, get_score_query. cbn.
  f_equal. f_equal. unfold votes_on.
  assert (E : filter (λ r : Vote, (vote_content_type_id r =? c)
                                  && ((vote_object_id r =? o) && true) = true) rs
              = filter (λ v, vote_content_type_id v = c ∧ vote_object_id v = o) rs).
  { apply list_filter_iff. intros r.
    rewrite andb_true_r, andb_true_iff, !Z.eqb_eq. tauto. }
  rewrite E. reflexivity.
Qed.

(** *** [get_scores_in_bulk] *)

Lemma bulk_text (x : string) :
  Py.format get_scores_in_bulk_template [quote_name db_table; x]
  = Ok (bulk_head +:+ x +:+ bulk_tail).
Proof. vm_compute. reflexivity. Qed.

Lemma lex_bulk_head (rest : string) :
  lex (bulk_head +:+ rest) = bulk_head_tokens TParam ++ lex_go (InWord "") rest.
Proof. vm_compute. reflexivity. Qed.

Lemma lex_bulk_tail : lex_go (InWord "") bulk_tail = bulk_tail_tokens.
Proof. vm_compute. reflexivity. Qed.

Lemma lex_placeholders n (rest : string) :
  lex_go (InWord "") (placeholders (S n) +:+ rest)
  = comma_list (replicate (S n) TParam) ++ lex_go (InWord "") rest.
Proof.
  induction n as [|n IH].
  - reflexivity.
  - change (placeholders (S (S n))) with ("%s," +:+ placeholders (S n))%string.
    change (lex_go (InWord "") (("%s," +:+ placeholders (S n)) +:+ rest))
      with (TParam :: TComma :: lex_go (InWord "") (placeholders (S n) +:+ rest)).
    rewrite IH. reflexivity.
Qed.

Lemma lex_bulk n :
  lex (bulk_sql (S n))
  = bulk_head_tokens TParam ++ comma_list (replicate (S n) TParam) ++ bulk_tail_tokens.
Proof. unfold bulk_sql. by rewrite lex_bulk_head, lex_placeholders, lex_bulk_tail. Qed.

Lemma bind_comma_list (vs : list Py.val) v (rest : list token) (ps : list Py.val) :
  bind (comma_list (replicate (S (length vs)) TParam) ++ rest) (v :: vs ++ ps)
  = Py.map (app (comma_list (TVal <$> (v :: vs)))) (bind rest ps).
Proof.
  revert v. induction vs as [|v' vs IH]; intros v.
  - cbn. by destruct (bind rest ps).
  - change (bind (comma_list (replicate (S (length (v' :: vs))) TParam) ++ rest)
                 (v :: (v' :: vs) ++ ps))
      with (Py.map (cons (TVal v)) (Py.map (cons TComma)
              (bind (comma_list (replicate (S (length vs)) TParam) ++ rest)
                    (v' :: vs ++ ps)))).
    rewrite IH. by destruct (bind rest ps).
Qed.

Lemma bind_bulk c (ids : list Z) id :
  bind (bulk_head_tokens TParam ++ comma_list (replicate (S (length ids)) TParam)
          ++ bulk_tail_tokens)
       (Some c :: (Some <$> (id :: ids)))
  = Ok (bulk_head_tokens (TVal (Some c)) ++ comma_list (TVal ∘ Some <$> (id :: ids))
          ++ bulk_tail_tokens).
Proof.
  unfold bulk_head_tokens at 1. cbn [app bind]. rewrite (fmap_cons Some).
  rewrite <- (app_nil_r (Some <$> ids)) at 1.
  rewrite <- (length_fmap Some ids).
  rewrite bind_comma_list. cbn [bind bulk_tail_tokens Py.map Py.bind app].
  rewrite <- fmap_cons, <- list_fmap_compose. reflexivity.
Qed.

Lemma parse_comma_list (v : Py.val) (vs : list Py.val) (rest : list token) :
  parse_in_list (comma_list (TVal <$> (v :: vs)) ++ TRParen :: rest) = Ok (v :: vs, rest).
Proof.
  revert v. induction vs as [|v' vs IH]; intros v.
  - reflexivity.
  - change (parse_in_list (comma_list (TVal <$> v :: v' :: vs) ++ TRParen :: rest))
      with (let! (vs', ts') :=
              parse_in_list (comma_list (TVal <$> (v' :: vs)) ++ TRParen :: rest) in
            Ok (v :: vs', ts')).
    rewrite IH. reflexivity.
Qed.

Lemma parse_bulk c (ids : list Z) id :
  parse (bulk_head_tokens (TVal (Some c)) ++ comma_list (TVal ∘ Some <$> (id :: ids))
           ++ bulk_tail_tokens)
  = Ok (bulk_query c (id :: ids)).
Proof.
  rewrite list_fmap_compose, (fmap_cons Some).
  unfold parse, bulk_head_tokens, bulk_tail_tokens.
  cbn [app is_kw String.eqb Ascii.eqb Bool.eqb length parse_select parse_expr is_keyword
       keywords existsb Py.bind orb parse_table parse_where parse_conds parse_cond
       literal negb].
  rewrite parse_comma_list. reflexivity.
Qed.

Lemma compile_bulk c id (ids : list Z) :
  compile (bulk_sql (S (length ids))) (Some c :: (Some <$> (id :: ids)))
  = Ok (bulk_query c (id :: ids)).
Proof.
  unfold compile. rewrite lex_bulk, bind_bulk. cbn [Py.bind]. apply parse_bulk.
Qed.

Lemma existsb_val_eqb x (ids : list Z) :
  existsb (val_eqb (Some x)) (Some <$> ids) = true ↔ x ∈ ids.
Proof.
  rewrite existsb_exists. split.
  - intros (v & Hv & E). apply list_elem_of_In, list_elem_of_fmap in Hv as (y & -> & Hy).
    cbn in E. apply Z.eqb_eq in E. by subst.
  - intros Hx. exists (Some x). split.
    + apply list_elem_of_In, list_elem_of_fmap. eauto.
    + cbn. apply Z.eqb_refl.
Qed.

Lemma run_bulk c ids rs :
  run (bulk_query c ids) rs
  = Ok ((λ x, [Some x;
               sum_of vote_vote (filter (λ r, vote_object_id r = x) (votes_among c ids rs));
               count_of (filter (λ r, vote_object_id r = x) (votes_among c ids rs))])
        <$> remove_dups (vote_object_id <$> votes_among c ids rs)).
Proof.
  unfold run, bulk_query. cbn.
  assert (E : filter (λ r, (vote_content_type_id r =? c)
                           && (existsb (val_eqb (Some (vote_object_id r))) (Some <$> ids)
                               && true) = true) rs
              = votes_among c ids rs).
  { apply list_filter_iff. intros r.
    rewrite andb_true_r, andb_true_iff, Z.eqb_eq, existsb_val_eqb. tauto. }
  rewrite E. f_equal. rewrite filter_all by done.
  rewrite <- list_fmap_compose. apply list_fmap_ext. intros i x Hx. cbn.
  apply list_elem_of_lookup_2 in Hx. rewrite elem_of_remove_dups in Hx.
  f_equal. by apply (head_filter_key vote_object_id).
Qed.

(** *** [get_top] *)

Lemma get_top_text :
  Py.format get_top_template [quote_name db_table] = Ok get_top_head.
Proof. vm_compute. reflexivity. Qed.

Lemma get_top_clause (reversed : bool) :
  (if reversed
   then get_top_head +:+ "HAVING SUM(vote) < 0 ORDER BY SUM(vote) ASC LIMIT %s"
   else get_top_head +:+ "HAVING SUM(vote) > 0 ORDER BY SUM(vote) DESC LIMIT %s")
  = get_top_sql reversed.
Proof. destruct reversed; reflexivity. Qed.

(** The database cannot read the statement: [object_idHAVING] is one
    word, and [SUM] cannot follow the column of GROUP BY. *)
Lemma get_top_lex :
  lex (get_top_sql false)
  = [TWord "SELECT"; TWord "object_id"; TComma; TWord "SUM"; TLParen; TWord "vote";
     TRParen; TWord "FROM"; TQuoted "votes"; TWord "WHERE"; TWord "content_type_id";
     TEq; TParam; TWord "GROUP"; TWord "BY"; TWord "object_idHAVING"; TWord "SUM";
     TLParen; TWord "vote"; TRParen; TGt; TWord "0"; TWord "ORDER"; TWord "BY";
     TWord "SUM"; TLParen; TWord "vote"; TRParen; TWord "DESC"; TWord "LIMIT"; TParam].
Proof. vm_compute. reflexivity. Qed.

Lemma get_top_compile reversed c limit :
  compile (get_top_sql reversed) [Some c; Some limit] = syntax_error.
Proof. destruct reversed; vm_compute; reflexivity. Qed.

(** With the blank the statement is read as meant. *)
Lemma spaced_compile reversed c limit :
  compile (spaced_sql reversed) [Some c; Some limit] = Ok (spaced_query reversed c limit).
Proof. destruct reversed; vm_compute; reflexivity. Qed.

End Statements.

(** ** The manager's methods *)

Lemma get_score_spec obj w :
  get_score obj w
  = (Ok (mkScore (Py.or (Sql.sum_of vote_vote
                           (votes_on (obj_content_type obj) (obj_id obj) (rows w)))
                        (Some 0))
                 (Sql.count_of (votes_on (obj_content_type obj) (obj_id obj) (rows w)))),
     logged w (Execute get_score_sql [Some (obj_content_type obj); Some (obj_id obj)])).
Proof.
  unfold get_score, get_for_model.
  step. rewrite get_score_text.
  step. unfold Sql.execute.
  rewrite get_score_compile. cbn [Py.bind]. rewrite get_score_run.
  reflexivity.
Qed.

Lemma get_scores_in_bulk_spec first rest w :
  get_scores_in_bulk (first :: rest) w
  = (Ok (bulk_scores (obj_content_type first) (obj_id <$> (first :: rest)) (rows w)),
     logged w (Execute (bulk_sql (length (first :: rest)))
                       (Some (obj_content_type first) :: (Some ∘ obj_id <$> (first :: rest))))).
Proof.
  unfold get_scores_in_bulk, get_for_model.
  step. rewrite bulk_text.
  step. cbn [index lookup list_lookup].
  step. unfold Sql.execute.
  fold (placeholders (length (first :: rest))). fold (bulk_sql (length (first :: rest))).
  assert (Hc : Sql.compile (bulk_sql (length (first :: rest)))
                 (Some (obj_content_type first) :: (Some ∘ obj_id <$> first :: rest))
               = Ok (bulk_query (obj_content_type first) (obj_id <$> (first :: rest)))).
  { rewrite list_fmap_compose, (fmap_cons obj_id). cbn [length].
    rewrite <- (length_fmap obj_id rest). apply compile_bulk. }
  rewrite Hc. cbn [Py.bind]. rewrite run_bulk.
  step.
  rewrite (for_each_fmap unpack3 _
             (λ x, (Some x,
                    Sql.sum_of vote_vote (filter (λ r, vote_object_id r = x)
                       (votes_among (obj_content_type first) (obj_id <$> first :: rest) (rows w))),
                    Sql.count_of (filter (λ r, vote_object_id r = x)
                       (votes_among (obj_content_type first) (obj_id <$> first :: rest) (rows w))))))
    by done.
  unfold ret, bulk_scores. rewrite <- list_fmap_compose. reflexivity.
Qed.

Lemma votes_among_on c ids x rs :
  x ∈ ids →
  filter (λ r, vote_object_id r = x) (votes_among c ids rs) = votes_on c x rs.
Proof.
  intros Hx. unfold votes_among, votes_on. rewrite list_filter_filter.
  apply list_filter_iff. intros r. split.
  - intros (E & Hc & _). done.
  - intros (Hc & E). split_and!; [done..|]. by rewrite E.
Qed.

Lemma elem_of_votes_among c ids x rs :
  x ∈ vote_object_id <$> votes_among c ids rs ↔ x ∈ ids ∧ votes_on c x rs ≠ [].
Proof.
  rewrite list_elem_of_fmap. split.
  - intros (r & -> & Hr). apply list_elem_of_filter in Hr as [[Hc Hin] Hr].
    split; [done|]. intros E.
    eapply (filter_nil_not_elem_of _ _ r); [exact E| |exact Hr]. done.
  - intros [Hin Hne]. destruct (votes_on c x rs) as [|r l] eqn:E; [done|].
    assert (Hr : r ∈ votes_on c x rs) by (rewrite E; left).
    apply list_elem_of_filter in Hr as [[Hc Ho] Hr].
    exists r. split; [done|]. apply list_elem_of_filter. split_and!; [done| |done].
    by rewrite Ho.
Qed.

(** An id is a key of the bulk dictionary when it was asked for and has
    votes; the entry is the sum and count of these votes. *)
Lemma bulk_scores_lookup c ids rs x :
  bulk_scores c ids rs !! Some x
  = if decide (x ∈ ids ∧ votes_on c x rs ≠ []) then Some (score_of (votes_on c x rs))
    else None.
Proof.
  unfold bulk_scores.
  rewrite (dict_lookup (λ x, Some x) (λ x, score_of (filter (λ r, vote_object_id r = x)
                                                      (votes_among c ids rs)))).
  destruct (decide (x ∈ ids ∧ votes_on c x rs ≠ [])) as [Hx|Hx].
  - rewrite (filter_key_unique Some).
    + cbn. by rewrite votes_among_on by apply Hx.
    + apply (NoDup_fmap_2 _), NoDup_remove_dups.
    + by rewrite elem_of_remove_dups, elem_of_votes_among.
  - rewrite (filter_key_nil Some); [done|].
    intros (y & [= ->] & Hy)%list_elem_of_fmap.
    by rewrite elem_of_remove_dups, elem_of_votes_among in Hy.
Qed.

Lemma bulk_scores_lookup_None c ids rs : bulk_scores c ids rs !! None = None.
Proof.
  unfold bulk_scores.
  rewrite (dict_lookup (λ x, Some x) (λ x, score_of (filter (λ r, vote_object_id r = x)
                                                      (votes_among c ids rs)))).
  induction (remove_dups _) as [|a l IH]; [done|].
  rewrite filter_cons, decide_False by done. exact IH.
Qed.

Lemma or_sum_of (votes : list Vote) :
  votes ≠ [] → Py.or (Sql.sum_of vote_vote votes) (Some 0) = Sql.sum_of vote_vote votes.
Proof.
  destruct votes as [|v l]; [done|]. intros _. unfold Py.or, Sql.sum_of, Py.truthy.
  destruct (Z.eqb_spec (Sql.sum_list (vote_vote <$> v :: l)) 0) as [->|]; done.
Qed.

Lemma get_for_user_in_bulk_spec first rest user w :
  get_for_user_in_bulk (first :: rest) user w
  = (Ok (dict ((λ vote, (vote_object_id vote, vote))
               <$> votes_of_user (obj_content_type first) (obj_id <$> first :: rest)
                     (user_id user) (rows w))),
     logged w (OrmFilter (obj_content_type first) (obj_id <$> first :: rest) (user_id user))).
Proof. reflexivity. Qed.

(** [get_top] stops at [cursor.execute], whatever it is called with. *)
Lemma get_top_fails in_bulk Model limit reversed w :
  get_top in_bulk Model limit reversed w
  = (Raise (DatabaseError "You have an error in your SQL syntax"),
     logged w (Execute (get_top_sql reversed) [Some Model; Some limit])).
Proof.
  unfold get_top. step. rewrite get_top_text, get_top_clause.
  unfold ranked. step. unfold Sql.execute.
  by rewrite get_top_compile.
Qed.

(** The loop of [get_top] keeps the pairs whose id the resolver found. *)
Lemma resolved_omap objects results :
  resolved objects results
  = omap (λ r, (λ o, (o, r.2)) <$> objects !! r.1) results.
Proof.
  induction results as [|[id score] rest IH]; [done|].
  cbn. destruct (objects !! id); cbn; by rewrite IH.
Qed.

Lemma resolved_elem objects results o score :
  (o, score) ∈ resolved objects results
  ↔ ∃ id, (id, score) ∈ results ∧ objects !! id = Some o.
Proof.
  rewrite resolved_omap, list_elem_of_omap. split.
  - intros ([id s] & Hin & E). cbn in E. destruct (objects !! id) eqn:Eo; [|done].
    injection E as <- <-. eauto.
  - intros (id & Hin & E). exists (id, score). split; [done|]. cbn. by rewrite E.
Qed.

Lemma resolved_length objects results :
  (length (resolved objects results) ≤ length results)%nat.
Proof.
  induction results as [|[id score] rest IH]; [done|].
  cbn. destruct (objects !! id); cbn; lia.
Qed.

(** ** The body of [get_top] on a well-formed statement *)

Section Ranking.
Import Sql.

Lemma spaced_run reversed c limit rs :
  0 ≤ limit →
  run (spaced_query reversed c limit) rs
  = Ok ((λ g, [vote_object_id <$> head g; sum_of vote_vote g])
        <$> ranked_groups reversed c limit rs).
Proof.
  intros Hlimit. unfold run, spaced_query. cbn.
  destruct (Z.ltb_spec limit 0) as [?|_]; [lia|].
  assert (E : filter (λ r, (vote_content_type_id r =? c) && true = true) rs
              = filter (λ r, vote_content_type_id r = c) rs).
  { apply list_filter_iff. intros r. rewrite andb_true_r, Z.eqb_eq. tauto. }
  rewrite E.
  assert (G : ((λ x, filter (λ r, vote_object_id r = x)
                       (filter (λ r, vote_content_type_id r = c) rs))
               <$> remove_dups (vote_object_id <$> filter (λ r, vote_content_type_id r = c) rs))
              = kind_groups c rs).
  { unfold kind_groups, voted_ids. apply list_fmap_ext. intros i x _.
    unfold votes_on. rewrite list_filter_filter. apply list_filter_iff. intros r. tauto. }
  destruct reversed; cbn; rewrite G; reflexivity.
Qed.

Lemma val_leb_total (a b : Py.val) : val_leb a b = true ∨ val_leb b a = true.
Proof. destruct a as [x|], b as [y|]; cbn; auto. rewrite !Z.leb_le. lia. Qed.

Lemma val_leb_trans (a b c : Py.val) :
  val_leb a b = true → val_leb b c = true → val_leb a c = true.
Proof.
  destruct a as [x|], b as [y|], c as [z|]; cbn; try done.
  rewrite !Z.leb_le. lia.
Qed.

#[global] Instance ordered_total d k : Total (ordered d k).
Proof. intros g1 g2. destruct d; cbn; apply val_leb_total. Qed.

#[global] Instance ordered_trans d k : Transitive (ordered d k).
Proof. intros g1 g2 g3. destruct d; cbn; eauto using val_leb_trans. Qed.

Lemma votes_on_head c x rs :
  votes_on c x rs ≠ [] → vote_object_id <$> head (votes_on c x rs) = Some x.
Proof.
  destruct (votes_on c x rs) as [|r l] eqn:E; [done|]. intros _. cbn.
  assert (Hr : r ∈ votes_on c x rs) by (rewrite E; left).
  apply list_elem_of_filter in Hr as [[_ ->] _]. done.
Qed.

Lemma voted_ids_votes_on c x rs : x ∈ voted_ids c rs ↔ votes_on c x rs ≠ [].
Proof.
  unfold voted_ids. rewrite elem_of_remove_dups, list_elem_of_fmap. split.
  - intros (r & -> & Hr). apply list_elem_of_filter in Hr as [Hc Hr]. intros E.
    eapply (filter_nil_not_elem_of _ _ r); [exact E| |exact Hr]. done.
  - intros Hne. destruct (votes_on c x rs) as [|r l] eqn:E; [done|].
    assert (Hr : r ∈ votes_on c x rs) by (rewrite E; left).
    apply list_elem_of_filter in Hr as [[Hc Ho] Hr].
    exists r. split; [done|]. by apply list_elem_of_filter.
Qed.

Lemma sum_of_votes_on c x rs :
  votes_on c x rs ≠ [] → sum_of vote_vote (votes_on c x rs) = Some (total c x rs).
Proof. unfold total. by destruct (votes_on c x rs). Qed.

Lemma kept_on_side (reversed : bool) c x rs :
  votes_on c x rs ≠ [] →
  val_cmp (if reversed then CmpLt else CmpGt) (sum_of vote_vote (votes_on c x rs)) (Some 0)
  = true ↔ on_side reversed (total c x rs).
Proof.
  intros Hne. rewrite sum_of_votes_on by done.
  destruct reversed; cbn; by rewrite Z.ltb_lt.
Qed.

(** Every group of the ranking is the votes on one object that has votes
    and whose sum is on the side asked for. *)
Lemma ranked_groups_elem reversed c limit rs g :
  g ∈ ranked_groups reversed c limit rs →
  ∃ x, g = votes_on c x rs ∧ votes_on c x rs ≠ [] ∧ on_side reversed (total c x rs).
Proof.
  unfold ranked_groups. intros Hg. apply subseteq_take in Hg.
  rewrite merge_sort_Permutation in Hg.
  apply list_elem_of_filter in Hg as [Hside Hg].
  apply list_elem_of_fmap in Hg as (x & -> & Hx).
  apply voted_ids_votes_on in Hx. exists x. split_and!; [done..|].
  by apply kept_on_side.
Qed.

Lemma filter_fmap {A B} (f : A → B) (P : B → Prop) `{∀ y, Decision (P y)} (l : list A) :
  filter P (f <$> l) = f <$> filter (λ x, P (f x)) l.
Proof.
  induction l as [|a l IH]; [done|].
  rewrite fmap_cons, !filter_cons. destruct (decide (P (f a))); by rewrite IH.
Qed.

Lemma kept_groups (reversed : bool) c rs :
  filter (λ g, val_cmp (if reversed then CmpLt else CmpGt) (sum_of vote_vote g) (Some 0)
               = true) (kind_groups c rs)
  = (λ x, votes_on c x rs)
    <$> filter (λ x, on_side reversed (total c x rs)) (voted_ids c rs).
Proof.
  unfold kind_groups. rewrite filter_fmap. f_equal.
  apply filter_in_ext. intros x Hx. apply kept_on_side. by apply voted_ids_votes_on.
Qed.

(** No object with votes and a sum on that side is left out, unless the
    limit cuts the ranking. *)
Lemma ranked_groups_complete (reversed : bool) c limit rs x :
  votes_on c x rs ≠ [] → on_side reversed (total c x rs) →
  (length (filter (λ y, on_side reversed (total c y rs)) (voted_ids c rs))
   ≤ Z.to_nat limit)%nat →
  votes_on c x rs ∈ ranked_groups reversed c limit rs.
Proof.
  intros Hne Hside Hlen. unfold ranked_groups.
  rewrite take_ge.
  - rewrite merge_sort_Permutation, kept_groups.
    apply (list_elem_of_fmap_2 (λ y, votes_on c y rs)), list_elem_of_filter.
    split; [done|].
    by apply voted_ids_votes_on.
  - by rewrite merge_sort_Permutation, kept_groups, length_fmap.
Qed.

Lemma ranking_elem reversed c limit rs id s :
  (id, s) ∈ ranking reversed c limit rs →
  ∃ x, id = Some x ∧ s = Some (total c x rs)
       ∧ votes_on c x rs ≠ [] ∧ on_side reversed (total c x rs).
Proof.
  unfold ranking. intros (g & [= -> ->] & Hg)%list_elem_of_fmap.
  apply ranked_groups_elem in Hg as (x & -> & Hne & Hside).
  exists x. split_and!; [by apply votes_on_head|by apply sum_of_votes_on|done..].
Qed.

Lemma take_StronglySorted {A} (R : relation A) n (l : list A) :
  StronglySorted R l → StronglySorted R (take n l).
Proof.
  intros Hl. rewrite <- (take_drop n l) in Hl. by apply StronglySorted_app_1_l in Hl.
Qed.

Lemma ranking_complete (reversed : bool) c limit rs x :
  votes_on c x rs ≠ [] → on_side reversed (total c x rs) →
  (length (filter (λ y, on_side reversed (total c y rs)) (voted_ids c rs))
   ≤ Z.to_nat limit)%nat →
  (Some x, Some (total c x rs)) ∈ ranking reversed c limit rs.
Proof.
  intros Hne Hside Hlen. unfold ranking. apply list_elem_of_fmap.
  exists (votes_on c x rs). split; [|by apply ranked_groups_complete].
  by rewrite votes_on_head, sum_of_votes_on.
Qed.

Lemma ranking_sorted reversed c limit rs :
  StronglySorted (λ p q, before reversed p.2 q.2) (ranking reversed c limit rs).
Proof.
  unfold ranking, ranked_groups.
  eapply StronglySorted_fmap; [|apply take_StronglySorted, StronglySorted_merge_sort; apply _].
  intros g1 g2. by destruct reversed.
Qed.

Lemma ranking_length reversed c limit rs :
  (length (ranking reversed c limit rs) ≤ Z.to_nat limit)%nat.
Proof. unfold ranking, ranked_groups. rewrite length_fmap, length_take. lia. Qed.

Lemma resolved_sorted (R : relation Py.val) objects results :
  StronglySorted (λ p q : Py.val * Py.val, R p.2 q.2) results →
  StronglySorted (λ p q : Obj * Py.val, R p.2 q.2) (resolved objects results).
Proof.
  induction 1 as [|[id s] rest Hrest IH Hall]; [constructor|].
  cbn. destruct (objects !! id) as [o|]; [|done].
  constructor; [done|]. apply Forall_forall. intros [o' s'] Ho'.
  apply resolved_elem in Ho' as (id' & Hin & _).
  rewrite Forall_forall in Hall. apply (Hall _ Hin).
Qed.

(** The body of [get_top] on the statement with the blank: the ranking,
    resolved. *)
Lemma ranked_spaced in_bulk reversed Model limit w :
  0 ≤ limit →
  ranked in_bulk (spaced_sql reversed) Model limit w
  = (Ok (resolved (in_bulk Model (fst <$> ranking reversed Model limit (rows w)))
                  (ranking reversed Model limit (rows w))),
     logged w (Execute (spaced_sql reversed) [Some Model; Some limit])).
Proof.
  intros Hlimit. unfold ranked.
  step. unfold Sql.execute.
  rewrite spaced_compile. cbn [Py.bind]. rewrite spaced_run by done.
  step.
  rewrite (for_each_fmap unpack2 _
             (λ g, (vote_object_id <$> head g, sum_of vote_vote g))) by done.
  reflexivity.
Qed.

(** What it yields: objects the resolver found, each with the sum of its
    votes, which is on the side asked for; largest (smallest) sum first;
    no more than [limit] of them. *)
Lemma ranked_spaced_output in_bulk reversed Model limit w :
  0 ≤ limit →
  ∃ out, ranked in_bulk (spaced_sql reversed) Model limit w
         = (Ok out, logged w (Execute (spaced_sql reversed) [Some Model; Some limit]))
    ∧ (∀ o s, (o, s) ∈ out →
         ∃ x, in_bulk Model (fst <$> ranking reversed Model limit (rows w)) !! Some x = Some o
              ∧ s = Some (total Model x (rows w))
              ∧ on_side reversed (total Model x (rows w)))
    ∧ StronglySorted (λ p q, before reversed p.2 q.2) out
    ∧ (length out ≤ Z.to_nat limit)%nat.
Proof.
  intros Hlimit. rewrite ranked_spaced by done. eexists. split; [reflexivity|].
  split_and!.
  - intros o s (id & Hin & Ho)%resolved_elem.
    apply ranking_elem in Hin as (x & -> & -> & _ & Hside). by exists x.
  - apply resolved_sorted, ranking_sorted.
  - etrans; [apply resolved_length|apply ranking_length].
Qed.

End Ranking.

(** ** [record_vote] and the constraints of the table *)

Lemma consistent_empty log ids : consistent (mkWorld [] 1 log ids).
Proof. constructor; cbn; constructor. Qed.

Lemma consistent_logged w op : consistent w → consistent (logged w op).
Proof. intros [Hpk Hissued Hkey Hcols]. by constructor. Qed.

(** A row of the key is a row the columns accept, so the key is one the
    table can hold. *)
Lemma stored_storable obj user w v :
  consistent w → v ∈ votes_by (key_of obj user) (rows w) → storable w obj user.
Proof.
  intros Hw [Hk Hv]%list_elem_of_filter.
  pose proof (columns_accept _ Hw) as Hcols. rewrite Forall_forall in Hcols.
  destruct (Hcols v Hv) as [Ho Hu]. unfold key_of, vote_key in Hk.
  injection Hk as Eu _ Eo. split; congruence.
Qed.

Lemma votes_by_at_most_one k w :
  consistent w → (length (votes_by k (rows w)) ≤ 1)%nat.
Proof.
  intros Hw.
  destruct (filter_key_cases vote_key (rows w) k (unique_together _ Hw))
    as [E|(v & _ & _ & E)]; unfold votes_by; rewrite E; cbn; lia.
Qed.

(** An accepted call for a vote the table can hold succeeds, keeps the
    constraints, and leaves the table that [after_vote] describes. *)
Lemma record_vote_step obj user vote w :
  consistent w → is_valid_vote vote = true → storable w obj user →
  ∃ w', record_vote obj user vote w = (Ok tt, w')
        ∧ consistent w'
        ∧ rows w' = after_vote (key_of obj user) vote w
        ∧ next_pk w' = after_vote_pk (key_of obj user) vote w
        ∧ users w' = users w.
Proof.
  intros [Hpk Hissued Hkey Hcols] Hvalid [Hobj Huser].
  unfold record_vote. rewrite Hvalid. cbn [negb].
  rewrite try_except_eq, bindM_eq, orm_get_eq.
  unfold after_vote, after_vote_pk, key_of.
  set (k := (user_id user, get_for_model obj, obj_id obj)).
  destruct (filter_key_cases vote_key (rows w) k Hkey) as [Hnone|(v & Hv & Hkv & Hone)];
    unfold votes_by.
  - (* no row of this key *)
    rewrite Hnone. destruct (Z.eqb_spec vote 0) as [->|Hnz]; cbn [negb].
    + eexists. split; [reflexivity|]. split; [|split_and!; reflexivity]. by constructor.
    + rewrite bindM_eq. unfold orm_create. rewrite bindM_eq.
      cbn [record rows next_pk log users logged].
      rewrite decide_False.
      2:{ intros [Htaken|Hrefused].
          - apply Exists_exists in Htaken as (r & Hr & Hrk). cbn in Hrk.
            eapply (filter_nil_not_elem_of _ _ r); [exact Hnone| |exact Hr]. exact Hrk.
          - apply Hrefused. by split. }
      eexists. split; [reflexivity|]. split; [|split_and!; reflexivity]. constructor; cbn.
      * rewrite fmap_app. apply NoDup_app. split_and!; [done| |apply NoDup_singleton].
        intros x Hx Hx'. apply list_elem_of_singleton in Hx'. cbn in Hx'. subst x.
        apply list_elem_of_fmap in Hx as (r & Hr1 & Hr2).
        rewrite Forall_forall in Hissued. specialize (Hissued r Hr2). lia.
      * apply Forall_app. split.
        -- eapply Forall_impl; [exact Hissued|]. cbn. intros; lia.
        -- constructor; [cbn; lia|constructor].
      * rewrite fmap_app. apply NoDup_app. split_and!; [done| |apply NoDup_singleton].
        intros x Hx Hx'. apply list_elem_of_singleton in Hx'. cbn in Hx'. subst x.
        apply list_elem_of_fmap in Hx as (r & Hr1 & Hr2).
        eapply (filter_nil_not_elem_of _ _ r); [exact Hnone| |exact Hr2]. cbn.
        by rewrite <- Hr1.
      * apply Forall_app. split; [exact Hcols|].
        constructor; [by split|constructor].
  - (* one row of this key *)
    rewrite Hone. destruct (Z.eqb_spec vote 0) as [->|Hnz].
    + unfold orm_delete. rewrite bindM_eq. cbn [record rows next_pk log users logged].
      eexists. split; [reflexivity|]. cbn [rows next_pk users].
      split; [|split_and!; [|reflexivity..]].
      * constructor; cbn.
        -- by apply NoDup_fmap_filter.
        -- apply Forall_forall. intros r [_ Hr]%list_elem_of_filter.
           rewrite Forall_forall in Hissued. by apply Hissued.
        -- by apply NoDup_fmap_filter.
        -- apply Forall_forall. intros r [_ Hr]%list_elem_of_filter.
           rewrite Forall_forall in Hcols. by apply Hcols.
      * apply filter_in_ext. intros r Hr. split.
        -- intros Hne E. apply Hne. f_equal.
           apply (NoDup_fmap_inj_on vote_key (rows w)); congruence.
        -- intros Hne E. apply Hne.
           assert (r = v) as -> by (apply (NoDup_fmap_inj_on vote_pk (rows w)); done).
           done.
    + unfold orm_save. rewrite bindM_eq.
      cbn [record rows next_pk log users logged vote_pk].
      rewrite decide_False.
      2:{ intros [Htaken|Hrefused].
          - apply Exists_exists in Htaken as (r & Hr & Hne & Hrk). apply Hne. f_equal.
            apply (NoDup_fmap_inj_on vote_key (rows w)); [done..|]. rewrite Hrk.
            by destruct v.
          - apply Hrefused. rewrite Forall_forall in Hcols. exact (Hcols v Hv). }
      rewrite decide_True by (rewrite Exists_exists; by exists v).
      assert (Hmap : ((λ r, if decide (vote_pk r = vote_pk v)
                             then mkVote (vote_pk v) (vote_user_id v)
                                    (vote_content_type_id v) (vote_object_id v) vote
                             else r) <$> rows w)
                     = ((λ r, if decide (vote_key r = k) then set_vote r vote else r)
                        <$> rows w)).
      { apply list_fmap_ext. intros i r Hr. apply list_elem_of_lookup_2 in Hr.
        destruct (decide (vote_pk r = vote_pk v)) as [E|E].
        - assert (r = v) as -> by (apply (NoDup_fmap_inj_on vote_pk (rows w)); done).
          by rewrite decide_True.
        - rewrite decide_False; [done|]. intros E'. apply E. f_equal.
          apply (NoDup_fmap_inj_on vote_key (rows w)); congruence. }
      eexists. split; [reflexivity|]. cbn [rows next_pk users]. rewrite Hmap.
      split; [|split_and!; reflexivity].
      assert (Hpks : vote_pk <$> ((λ r, if decide (vote_key r = k)
                                        then set_vote r vote else r) <$> rows w)
                     = vote_pk <$> rows w).
      { rewrite <- list_fmap_compose. apply list_fmap_ext. intros i r _. cbn.
        by destruct (decide _). }
      assert (Hkeys : vote_key <$> ((λ r, if decide (vote_key r = k)
                                          then set_vote r vote else r) <$> rows w)
                     = vote_key <$> rows w).
      { rewrite <- list_fmap_compose. apply list_fmap_ext. intros i r _. cbn.
        by destruct (decide _). }
      constructor; cbn.
      * by rewrite Hpks.
      * rewrite Forall_fmap. eapply Forall_impl; [exact Hissued|].
        intros r Hr. cbn. by destruct (decide _).
      * by rewrite Hkeys.
      * rewrite Forall_fmap. eapply Forall_impl; [exact Hcols|].
        intros r Hr. cbn. by destruct (decide _).
Qed.

(** An accepted call for a vote the table cannot hold: nothing is stored
    for the key, so a retraction has nothing to do, and the table refuses
    the row of any other value. The table is as it was. *)
Lemma record_vote_refused_step obj user vote w :
  consistent w → is_valid_vote vote = true → ¬ storable w obj user →
  ∃ w', record_vote obj user vote w
        = (if vote =? 0 then Ok tt else Raise IntegrityError, w')
        ∧ consistent w'
        ∧ rows w' = rows w ∧ next_pk w' = next_pk w ∧ users w' = users w.
Proof.
  intros Hw Hvalid Hnot.
  unfold record_vote. rewrite Hvalid. cbn [negb].
  rewrite try_except_eq, bindM_eq, orm_get_eq. fold (key_of obj user).
  destruct (votes_by (key_of obj user) (rows w)) as [|v l] eqn:Hnone.
  2:{ exfalso. apply Hnot, (stored_storable obj user w v Hw). rewrite Hnone. left. }
  destruct (Z.eqb_spec vote 0) as [->|Hnz]; cbn [negb].
  - eexists. split; [reflexivity|]. split_and!; [|reflexivity..].
    by apply consistent_logged.
  - rewrite bindM_eq. unfold orm_create. rewrite bindM_eq.
    cbn [record rows next_pk log users logged].
    rewrite decide_True.
    2:{ right. intros [Ho Hu]. apply Hnot. by split. }
    eexists. split; [reflexivity|]. split_and!; [|reflexivity..].
    apply (consistent_logged (logged w _) _), consistent_logged, Hw.
Qed.

(** The rows of the key after the call: none after a retraction, one with
    the submitted value otherwise. *)
Lemma votes_by_after k vote w :
  NoDup (vote_key <$> rows w) →
  votes_by k (after_vote k vote w)
  = if vote =? 0 then []
    else [match votes_by k (rows w) with
          | [] => mkVote (next_pk w) k.1.1 k.1.2 k.2 vote
          | v :: _ => set_vote v vote
          end].
Proof.
  intros Hkey. unfold after_vote.
  destruct (filter_key_cases vote_key (rows w) k Hkey) as [Hnone|(v & Hv & Hkv & Hone)];
    unfold votes_by in *.
  - rewrite Hnone. destruct (vote =? 0); [done|].
    rewrite filter_app, Hnone, filter_cons, decide_True; [done|].
    by destruct k as [[??]?].
  - rewrite Hone. destruct (vote =? 0).
    + apply filter_key_nil. intros (r & Hr1 & Hr2)%list_elem_of_fmap.
      apply list_elem_of_filter in Hr2 as [Hr2 _]. congruence.
    + induction (rows w) as [|a l IH] in Hone |- *; [done|].
      rewrite fmap_cons, filter_cons. rewrite filter_cons in Hone.
      destruct (decide (vote_key a = k)) as [E|E].
      * rewrite decide_True by done. injection Hone as -> Hl.
        f_equal. clear IH. induction l as [|b l IH]; [done|].
        rewrite filter_cons in Hl. rewrite fmap_cons, filter_cons.
        destruct (decide (vote_key b = k)); [done|].
        rewrite decide_False by done. by apply IH.
      * rewrite decide_False by done. by apply IH.
Qed.

Lemma record_votes_run obj user votes w :
  consistent w → storable w obj user → Forall (λ vote, vote ∈ [1; 0; -1]) votes →
  ∃ w', record_votes obj user votes w = (Ok tt, w')
        ∧ consistent w'
        ∧ ∀ vote, last votes = Some vote →
            if vote =? 0 then votes_by (key_of obj user) (rows w') = []
            else ∃ r, votes_by (key_of obj user) (rows w') = [r] ∧ vote_vote r = vote.
Proof.
  intros Hw Hs Hvalid. induction Hvalid as [|vote rest Hvote Hrest IH] in w, Hw, Hs |- *.
  - exists w. split_and!; [done..|]. intros vote [=].
  - cbn [record_votes]. rewrite bindM_eq.
    assert (Hv : is_valid_vote vote = true).
    { unfold is_valid_vote. by apply bool_decide_eq_true. }
    destruct (record_vote_step obj user vote w Hw Hv Hs)
      as (w1 & -> & Hw1 & Hrows & _ & Husers).
    assert (Hs1 : storable w1 obj user) by (unfold storable; by rewrite Husers).
    destruct (IH w1 Hw1 Hs1) as (w' & Hrun & Hw' & Hlast).
    exists w'. split_and!; [done..|].
    intros vote' Hl. destruct rest as [|vote2 rest].
    + cbn in Hl. injection Hl as <-. cbn in Hrun. injection Hrun as <-.
      rewrite Hrows, votes_by_after by apply Hw.
      destruct (vote =? 0); [done|]. eexists. split; [reflexivity|].
      by destruct (votes_by _ (rows w)).
    + apply Hlast. by rewrite last_cons_cons in Hl.
Qed.

(** ** The claims *)

(** C1: take any sequence of [record_vote] calls by one user on one
    object, run one after the other on a table that meets its constraints,
    where every submitted value is one of +1, 0 and -1 (a call with another
    value raises and ends the sequence), the id of the object is not
    negative and the user has a row in the users table (the table refuses
    the row of any other object or user). Then every call has succeeded and
    at most one row of that (user, object) key exists; a row that exists
    holds the last nonzero value submitted; there is none when the last
    value was 0, and there is one, with the last value, when the last value
    was not 0. *)
Theorem record_vote_sequence obj user votes w :
  consistent w → 0 ≤ obj_id obj → user_id user ∈ users w →
  Forall (λ vote, vote ∈ [1; 0; -1]) votes →
  ∃ w', record_votes obj user votes w = (Ok tt, w')
    ∧ (length (votes_by (key_of obj user) (rows w')) ≤ 1)%nat
    ∧ (votes ≠ [] → ∀ r, r ∈ votes_by (key_of obj user) (rows w') →
         last (filter (λ vote, vote ≠ 0) votes) = Some (vote_vote r))
    ∧ (last votes = Some 0 → votes_by (key_of obj user) (rows w') = [])
    ∧ (∀ vote, last votes = Some vote → vote ≠ 0 →
         ∃ r, votes_by (key_of obj user) (rows w') = [r] ∧ vote_vote r = vote).
Proof.
  intros Hw Hobj Huser Hvalid.
  destruct (record_votes_run obj user votes w Hw (conj Hobj Huser) Hvalid)
    as (w' & Hrun & Hw' & Hlast).
  exists w'. split_and!; [done| | | |].
  - by apply votes_by_at_most_one.
  - intros Hne r Hr.
    destruct (last votes) as [vote|] eqn:El.
    2:{ apply last_None in El. done. }
    specialize (Hlast vote eq_refl).
    destruct (Z.eqb_spec vote 0) as [->|Hnz].
    + rewrite Hlast in Hr. inversion Hr.
    + destruct Hlast as (r' & E & Hv). rewrite E in Hr.
      apply list_elem_of_singleton in Hr as ->.
      apply last_Some in El as (init & ->).
      rewrite filter_app, filter_cons, decide_True, filter_nil by congruence.
      by rewrite last_snoc, Hv.
  - intros El. apply (Hlast 0 El).
  - intros vote El Hnz. specialize (Hlast vote El).
    by destruct (Z.eqb_spec vote 0).
Qed.

Lemma record_vote_sequence_witness :
  consistent example_world
  ∧ 0 ≤ obj_id A ∧ user_id (member 1) ∈ users example_world
  ∧ Forall (λ vote, vote ∈ [1; 0; -1]) [-1; 0; 1]
  ∧ ∃ w', record_votes A (member 1) [-1; 0; 1] example_world = (Ok tt, w')
      ∧ (length (votes_by (key_of A (member 1)) (rows w')) ≤ 1)%nat
      ∧ ([-1; 0; 1] ≠ [] → ∀ r, r ∈ votes_by (key_of A (member 1)) (rows w') →
           last (filter (λ vote, vote ≠ 0) [-1; 0; 1]) = Some (vote_vote r))
      ∧ (last [-1; 0; 1] = Some 0 → votes_by (key_of A (member 1)) (rows w') = [])
      ∧ (∀ vote, last [-1; 0; 1] = Some vote → vote ≠ 0 →
           ∃ r, votes_by (key_of A (member 1)) (rows w') = [r] ∧ vote_vote r = vote).
Proof.
  assert (H1 : consistent example_world) by (constructor; compute_done).
  assert (H2 : Forall (λ vote, vote ∈ [1; 0; -1]) [-1; 0; 1]) by compute_done.
  assert (H3 : 0 ≤ obj_id A) by compute_done.
  assert (H4 : user_id (member 1) ∈ users example_world) by compute_done.
  split_and!; [exact H1|exact H3|exact H4|exact H2|].
  exact (record_vote_sequence A (member 1) [-1; 0; 1] example_world H1 H3 H4 H2).
Defined.

(** C2: on a table that meets its constraints, for an object whose id is
    not negative and a user that has a row in the users table (the table
    refuses the row of any other object or user), [record_vote] with a
    value among +1, 0 and -1 succeeds and does one of four things: it
    deletes the row of the (user, object) key when there is one and the
    value is 0; it overwrites the value of that row when there is one and
    the value is not 0; it changes nothing when there is none and the value
    is 0; it adds a row with the value when there is none and the value is
    not 0. *)
Theorem record_vote_cases obj user vote w :
  consistent w → 0 ≤ obj_id obj → user_id user ∈ users w → vote ∈ [1; 0; -1] →
  let k := key_of obj user in
  ∃ w', record_vote obj user vote w = (Ok tt, w')
    ∧ (votes_by k (rows w) ≠ [] → vote = 0 →
         rows w' = filter (λ r, vote_key r ≠ k) (rows w)
         ∧ next_pk w' = next_pk w)
    ∧ (votes_by k (rows w) ≠ [] → vote ≠ 0 →
         rows w' = (λ r, if decide (vote_key r = k) then set_vote r vote else r) <$> rows w
         ∧ next_pk w' = next_pk w)
    ∧ (votes_by k (rows w) = [] → vote = 0 →
         rows w' = rows w ∧ next_pk w' = next_pk w)
    ∧ (votes_by k (rows w) = [] → vote ≠ 0 →
         rows w' = rows w ++ [mkVote (next_pk w) (user_id user) (get_for_model obj)
                                     (obj_id obj) vote]
         ∧ next_pk w' = next_pk w + 1).
Proof.
  intros Hw Hobj Huser Hvote k.
  assert (Hv : is_valid_vote vote = true).
  { unfold is_valid_vote. by apply bool_decide_eq_true. }
  destruct (record_vote_step obj user vote w Hw Hv (conj Hobj Huser))
    as (w' & Hrun & _ & Hrows & Hpk & _).
  exists w'. split; [done|]. fold k in Hrows, Hpk.
  unfold after_vote in Hrows. unfold after_vote_pk in Hpk.
  destruct (votes_by k (rows w)) as [|v l]; destruct (Z.eqb_spec vote 0); split_and!; done.
Qed.

Lemma record_vote_cases_witness :
  consistent example_world
  ∧ 0 ≤ obj_id A ∧ user_id (member 1) ∈ users example_world
  ∧ (-1) ∈ [1; 0; -1]
  ∧ ∃ w', record_vote A (member 1) (-1) example_world = (Ok tt, w')
      ∧ rows w' = (λ r, if decide (vote_key r = key_of A (member 1))
                        then set_vote r (-1) else r) <$> rows example_world
      ∧ next_pk w' = next_pk example_world.
Proof.
  assert (H1 : consistent example_world) by (constructor; compute_done).
  assert (H2 : (-1) ∈ [1; 0; -1]) by compute_done.
  assert (H3 : 0 ≤ obj_id A) by compute_done.
  assert (H4 : user_id (member 1) ∈ users example_world) by compute_done.
  split_and!; [exact H1|exact H3|exact H4|exact H2|].
  destruct (record_vote_cases A (member 1) (-1) example_world H1 H3 H4 H2)
    as (w' & Hrun & _ & Hset & _).
  exists w'. split; [exact Hrun|]. apply Hset; compute_done.
Defined.

(** C4: for an object with no stored votes [get_score] does not fail and
    returns score 0 and num_votes 0. *)
Theorem get_score_unvoted obj w :
  votes_on (obj_content_type obj) (obj_id obj) (rows w) = [] →
  get_score obj w
  = (Ok (mkScore (Some 0) (Some 0)),
     logged w (Execute get_score_sql [Some (obj_content_type obj); Some (obj_id obj)])).
Proof.
  intros H. rewrite get_score_spec, H. reflexivity.
Qed.

Lemma get_score_unvoted_witness :
  votes_on 3 9 (rows example_world) = []
  ∧ get_score (mkObj 3 9) example_world
    = (Ok (mkScore (Some 0) (Some 0)),
       logged example_world (Execute get_score_sql [Some 3; Some 9])).
Proof.
  split; [reflexivity|]. apply (get_score_unvoted (mkObj 3 9) example_world). reflexivity.
Defined.

(** C5: for a value other than +1, 0 and -1, [record_vote] raises the
    invalid-vote error ([ValueError]) and nothing has reached the table:
    its rows, its sequence and the log of statements are as before. *)
Theorem record_vote_invalid obj user vote w :
  vote ∉ [1; 0; -1] →
  record_vote obj user vote w = (Raise (ValueError "Invalid vote (must be +1/0/-1)"), w).
Proof.
  intros H. unfold record_vote, is_valid_vote.
  rewrite bool_decide_eq_false_2 by exact H. reflexivity.
Qed.

Lemma record_vote_invalid_witness :
  (2 ∉ [1; 0; -1])
  ∧ record_vote A (member 1) 2 example_world
    = (Raise (ValueError "Invalid vote (must be +1/0/-1)"), example_world).
Proof.
  assert (H : 2 ∉ [1; 0; -1]) by compute_done.
  split; [exact H|]. exact (record_vote_invalid A (member 1) 2 example_world H).
Defined.

(** C3: [get_top] and [get_bottom] are meant to return the per-object sums
    that are strictly positive, largest first (strictly negative, smallest
    first), cut at [limit]. They never get that far: for every resolver,
    kind, limit and table, the statement they send is refused by the
    database, and iterating either raises its error. *)
Theorem get_top_and_get_bottom_raise in_bulk Model limit w :
  get_top in_bulk Model limit false w
  = (Raise (DatabaseError "You have an error in your SQL syntax"),
     logged w (Execute (get_top_sql false) [Some Model; Some limit]))
  ∧ get_bottom in_bulk Model limit w
    = (Raise (DatabaseError "You have an error in your SQL syntax"),
       logged w (Execute (get_top_sql true) [Some Model; Some limit])).
Proof. split; apply get_top_fails. Qed.

(** The body of [get_top] on the statement with the blank: the ranking of
    the example table. *)
Example spaced_top :
  fst (ranked all_objects (spaced_sql false) 3 2 example_world)
  = Ok [(A, Some 5); (C, Some 2)].
Proof. vm_compute. reflexivity. Qed.

Example spaced_bottom :
  fst (ranked all_objects (spaced_sql true) 3 2 example_world) = Ok [(B, Some (-3))].
Proof. vm_compute. reflexivity. Qed.

Example spaced_bottom_without_B :
  fst (ranked without_B (spaced_sql true) 3 2 example_world) = Ok [].
Proof. vm_compute. reflexivity. Qed.

(** C6: on an empty list of objects [get_for_user_in_bulk] returns an empty
    dictionary without a query, but [get_scores_in_bulk] does not: it has
    no such guard, and [objects[0]] raises [IndexError] before any
    statement is sent. *)
Theorem bulk_lookups_on_empty user w :
  get_scores_in_bulk [] w = (Raise IndexError, w)
  ∧ get_for_user_in_bulk [] user w = (Ok ∅, w).
Proof. split; reflexivity. Qed.

(** C7, as stated: objects of two kinds are not rejected. The object of
    content type 4 with id 1 is given the score of the object of content
    type 3 with id 1, and one statement is sent. *)
Lemma mixed_kinds_not_rejected :
  get_scores_in_bulk [A; E] example_world
  = (Ok {[ Some 1 := mkScore (Some 5) (Some 5) ]},
     logged example_world (Execute (bulk_sql 2) [Some 3; Some 1; Some 1]))
  ∧ ¬ ∃ e, get_scores_in_bulk [A; E] example_world = (Raise e, example_world).
Proof.
  split.
  - vm_compute. reflexivity.
  - intros [e He]. vm_compute in He. discriminate He.
Qed.

(** C7, amended: a bulk score lookup never checks the kinds of its
    objects. For a non-empty list it sends one statement, with the content
    type of the first object and the ids of all of them, and does not
    fail; an id is a key of the result when it is the id of one of the
    objects and the table has votes on the object of that id and of the
    first object's kind, and its entry is the sum and count of these
    votes. *)
Theorem bulk_uses_first_kind first rest w :
  let objects := first :: rest in
  let kind := obj_content_type first in
  ∃ d, get_scores_in_bulk objects w
       = (Ok d, logged w (Execute (bulk_sql (length objects))
                                  (Some kind :: (Some ∘ obj_id <$> objects))))
    ∧ d !! None = None
    ∧ ∀ x, d !! Some x
           = if decide (x ∈ obj_id <$> objects ∧ votes_on kind x (rows w) ≠ [])
             then Some (score_of (votes_on kind x (rows w)))
             else None.
Proof.
  intros objects kind. subst objects kind. rewrite get_scores_in_bulk_spec.
  eexists. split; [reflexivity|]. split.
  - apply bulk_scores_lookup_None.
  - intros x. apply bulk_scores_lookup.
Qed.

(** C8: for a non-empty list of objects of one kind, [get_scores_in_bulk]
    returns a dictionary; every key of it is the id of one of the objects,
    and its entry is what [get_score] returns for an object of that kind
    and id. *)
Theorem bulk_agrees_with_single objects w kind :
  objects ≠ [] → (∀ obj, obj ∈ objects → obj_content_type obj = kind) →
  ∃ d, fst (get_scores_in_bulk objects w) = Ok d
    ∧ ∀ k entry, d !! k = Some entry →
        (∃ obj, obj ∈ objects ∧ Some (obj_id obj) = k)
        ∧ ∀ obj, obj_content_type obj = kind → Some (obj_id obj) = k →
            fst (get_score obj w) = Ok entry.
Proof.
  intros Hne Hkind. destruct objects as [|first rest]; [done|].
  rewrite get_scores_in_bulk_spec. eexists. split; [reflexivity|].
  intros k entry Hk. destruct k as [x|]; [|by rewrite bulk_scores_lookup_None in Hk].
  rewrite bulk_scores_lookup in Hk.
  destruct (decide _) as [[Hin Hvotes]|]; [|done]. injection Hk as <-.
  rewrite (Hkind first) in Hvotes |- * by left. split.
  - apply list_elem_of_fmap in Hin as (obj & -> & Hobj). by exists obj.
  - intros obj Hc [= <-]. rewrite get_score_spec. cbn [fst]. rewrite Hc.
    by rewrite or_sum_of.
Qed.

Lemma bulk_agrees_with_single_witness :
  [A; B; D; mkObj 3 9] ≠ []
  ∧ (∀ obj, obj ∈ [A; B; D; mkObj 3 9] → obj_content_type obj = 3)
  ∧ ∃ d, fst (get_scores_in_bulk [A; B; D; mkObj 3 9] example_world) = Ok d
      ∧ ∀ k entry, d !! k = Some entry →
          (∃ obj, obj ∈ [A; B; D; mkObj 3 9] ∧ Some (obj_id obj) = k)
          ∧ ∀ obj, obj_content_type obj = 3 → Some (obj_id obj) = k →
              fst (get_score obj example_world) = Ok entry.
Proof.
  assert (H1 : [A; B; D; mkObj 3 9] ≠ []) by discriminate.
  assert (H2 : ∀ obj, obj ∈ [A; B; D; mkObj 3 9] → obj_content_type obj = 3).
  { intros obj Hobj. rewrite !elem_of_cons, elem_of_nil in Hobj.
    destruct Hobj as [->|[->|[->|[->|[]]]]]; reflexivity. }
  split_and!; [exact H1|exact H2|].
  exact (bulk_agrees_with_single [A; B; D; mkObj 3 9] example_world 3 H1 H2).
Defined.

(** C9: with a resolver for which B no longer exists, [get_top] is meant
    to yield A and C, and [get_bottom] to skip B without an error. The
    loop that skips missing objects is never reached: on the example
    table both raise the error of the database. *)
Theorem resolver_drop_never_reached :
  fst (get_top without_B 3 10 false example_world)
  = Raise (DatabaseError "You have an error in your SQL syntax")
  ∧ fst (get_bottom without_B 3 10 example_world)
    = Raise (DatabaseError "You have an error in your SQL syntax").
Proof. split; vm_compute; reflexivity. Qed.

(** C10: [get_for_user_in_bulk] never asks whether the user is
    authenticated. For every user and non-empty list of objects it sends
    one query, by the content type of the first object, the ids of the
    objects and the id of the user, and returns the rows found by object
    id. For a user who is not authenticated, [get_for_user] returns [None]
    without a query, while the bulk lookup returns that user's vote on
    every listed object of the first object's kind that the user has voted
    on. *)
Theorem bulk_lookup_skips_authentication first rest user w :
  let objects := first :: rest in
  let votes := votes_of_user (obj_content_type first) (obj_id <$> objects)
                 (user_id user) (rows w) in
  ∃ d, get_for_user_in_bulk objects user w
       = (Ok d, logged w (OrmFilter (obj_content_type first) (obj_id <$> objects)
                                    (user_id user)))
    ∧ d = dict ((λ vote, (vote_object_id vote, vote)) <$> votes)
    ∧ (is_authenticated user = false →
       ∀ obj, obj ∈ objects → obj_content_type obj = obj_content_type first →
         get_for_user obj user w = (Ok None, w)
         ∧ (votes_by (key_of obj user) (rows w) ≠ [] →
            ∃ vote, d !! obj_id obj = Some vote
                    ∧ vote ∈ rows w ∧ vote_key vote = key_of obj user)).
Proof.
  intros objects votes. subst objects votes. rewrite get_for_user_in_bulk_spec.
  eexists. split; [reflexivity|]. split; [reflexivity|].
  intros Hanon obj Hobj Hkind. split.
  - unfold get_for_user. by rewrite Hanon.
  - intros Hvoted.
    rewrite (dict_lookup vote_object_id (λ v, v)).
    destruct (last _) as [vote|] eqn:El.
    + exists vote. split; [done|].
      apply last_Some_elem_of, list_elem_of_filter in El as [Ho Hv].
      apply list_elem_of_filter in Hv as [(Hc & _ & Hu) Hv].
      split; [done|]. unfold vote_key, key_of, get_for_model. congruence.
    + exfalso. apply last_None in El.
      destruct (votes_by _ _) as [|v l] eqn:E; [done|].
      assert (Hv : v ∈ votes_by (key_of obj user) (rows w)) by (rewrite E; left).
      apply list_elem_of_filter in Hv as [Hk Hv].
      unfold vote_key, key_of, get_for_model in Hk. injection Hk as Hu Hc Ho.
      eapply (filter_nil_not_elem_of _ _ v); [exact El|exact Ho|].
      apply list_elem_of_filter. split_and!; [congruence| |done|done].
      rewrite Ho. by apply list_elem_of_fmap_2.
Qed.

Lemma bulk_lookup_skips_authentication_witness :
  is_authenticated (anonymous 2) = false
  ∧ get_for_user A (anonymous 2) example_world = (Ok None, example_world)
  ∧ ∃ d, fst (get_for_user_in_bulk [A; B] (anonymous 2) example_world) = Ok d
      ∧ ∃ vote, d !! obj_id A = Some vote ∧ vote_key vote = key_of A (anonymous 2).
Proof.
  destruct (bulk_lookup_skips_authentication A [B] (anonymous 2) example_world)
    as (d & Hrun & _ & Hanon).
  destruct (Hanon eq_refl A) as [Hsingle Hbulk]; [left|reflexivity|].
  destruct Hbulk as (vote & Hd & _ & Hkey); [discriminate|].
  split_and!; [reflexivity|exact Hsingle|].
  exists d. split; [by rewrite Hrun|]. by exists vote.
Defined.

(** * Further properties *)

(** ** More on [record_vote] *)

Lemma is_valid_vote_true vote :
  is_valid_vote vote = true ↔ vote = 1 ∨ vote = 0 ∨ vote = -1.
Proof.
  unfold is_valid_vote. rewrite bool_decide_eq_true.
  rewrite !elem_of_cons, elem_of_nil. tauto.
Qed.

Lemma record_vote_rejected obj user vote w :
  is_valid_vote vote = false → snd (record_vote obj user vote w) = w.
Proof. intros H. unfold record_vote. by rewrite H. Qed.

(** The table after any call: accepted or rejected, for a vote the table
    can hold or not. *)
Lemma record_vote_rows obj user vote w :
  consistent w →
  consistent (snd (record_vote obj user vote w))
  ∧ rows (snd (record_vote obj user vote w))
    = (if is_valid_vote vote && bool_decide (storable w obj user)
       then after_vote (key_of obj user) vote w else rows w)
  ∧ next_pk (snd (record_vote obj user vote w))
    = (if is_valid_vote vote && bool_decide (storable w obj user)
       then after_vote_pk (key_of obj user) vote w else next_pk w)
  ∧ users (snd (record_vote obj user vote w)) = users w.
Proof.
  intros Hw. destruct (is_valid_vote vote) eqn:Hv; cbn [andb].
  - destruct (decide (storable w obj user)) as [Hs|Hs].
    + rewrite bool_decide_eq_true_2 by done.
      destruct (record_vote_step obj user vote w Hw Hv Hs)
        as (w' & -> & Hw' & Hrows & Hpk & Husers).
      done.
    + rewrite bool_decide_eq_false_2 by done.
      destruct (record_vote_refused_step obj user vote w Hw Hv Hs)
        as (w' & -> & Hw' & Hrows & Hpk & Husers).
      done.
  - by rewrite record_vote_rejected.
Qed.

(** A filter that lets no row of the key through sees the same rows before
    and after. *)
Lemma after_vote_frame (P : Vote → Prop) `{∀ r, Decision (P r)} k vote w :
  (∀ r, vote_key r = k → ¬ P r) →
  filter P (after_vote k vote w) = filter P (rows w).
Proof.
  intros HP. unfold after_vote.
  destruct (votes_by k (rows w)) as [|v l]; destruct (vote =? 0).
  - done.
  - rewrite filter_app, filter_cons, decide_False, filter_nil, app_nil_r; [done|].
    apply HP. by destruct k as [[??]?].
  - rewrite list_filter_filter. apply list_filter_iff. intros r. split; [tauto|].
    intros Hr. split; [done|]. intros E. by apply (HP r).
  - induction (rows w) as [|a rs IH]; [done|].
    rewrite fmap_cons, !filter_cons. destruct (decide (vote_key a = k)) as [E|E].
    + rewrite !decide_False; [exact IH|by apply HP|apply HP; by rewrite <- E].
    + destruct (decide (P a)); by rewrite IH.
Qed.

Lemma after_vote_unit k vote w :
  is_valid_vote vote = true → unit_votes (rows w) → unit_votes (after_vote k vote w).
Proof.
  intros Hv%is_valid_vote_true Hu. unfold after_vote, unit_votes in *.
  destruct (votes_by k (rows w)) as [|v l]; destruct (Z.eqb_spec vote 0) as [->|Hnz].
  - done.
  - apply Forall_app. split; [done|]. constructor; [cbn; lia|constructor].
  - apply Forall_forall. intros r [_ Hr]%list_elem_of_filter.
    rewrite Forall_forall in Hu. by apply Hu.
  - rewrite Forall_fmap. eapply Forall_impl; [exact Hu|]. intros r Hr. cbn.
    destruct (decide _); [cbn; lia|done].
Qed.

Lemma record_vote_invariant obj user vote w :
  consistent w → unit_votes (rows w) →
  consistent (snd (record_vote obj user vote w))
  ∧ unit_votes (rows (snd (record_vote obj user vote w))).
Proof.
  intros Hw Hu. destruct (record_vote_rows obj user vote w Hw) as (Hw' & -> & _).
  split; [done|]. destruct (is_valid_vote vote) eqn:Hv; [|done].
  cbn [andb]. destruct (bool_decide _); [|done].
  by apply after_vote_unit.
Qed.

Lemma after_calls_invariant calls w :
  consistent w → unit_votes (rows w) →
  consistent (after_calls calls w) ∧ unit_votes (rows (after_calls calls w)).
Proof.
  revert w. induction calls as [|[[obj user] vote] rest IH]; intros w Hw Hu; [done|].
  cbn [after_calls].
  destruct (record_vote_invariant obj user vote w Hw Hu) as [Hw' Hu'].
  by apply IH.
Qed.

Lemma or_sum_total (l : list Vote) :
  Py.or (Sql.sum_of vote_vote l) (Some 0) = Some (Sql.sum_list (vote_vote <$> l)).
Proof.
  destruct l as [|v l]; [done|]. unfold Py.or, Sql.sum_of, Py.truthy.
  destruct (Z.eqb_spec (Sql.sum_list (vote_vote <$> v :: l)) 0) as [->|]; done.
Qed.

(** [get_score] as a function of the table. *)
Lemma get_score_value obj w :
  fst (get_score obj w)
  = Ok (mkScore (Some (total (obj_content_type obj) (obj_id obj) (rows w)))
                (Some (Z.of_nat (length (votes_on (obj_content_type obj) (obj_id obj)
                                           (rows w)))))).
Proof. rewrite get_score_spec. cbn [fst]. by rewrite or_sum_total. Qed.

(** [get_for_user] for an authenticated user, on a table that meets its
    constraints. *)
Lemma get_for_user_value obj user w :
  consistent w → is_authenticated user = true →
  get_for_user obj user w
  = (Ok (head (votes_by (key_of obj user) (rows w))),
     logged w (OrmGet (user_id user) (get_for_model obj) (obj_id obj))).
Proof.
  intros Hw Hauth. unfold get_for_user. rewrite Hauth. cbn [negb].
  rewrite try_except_eq, bindM_eq, orm_get_eq. fold (key_of obj user).
  destruct (filter_key_cases vote_key (rows w) (key_of obj user) (unique_together _ Hw))
    as [E|(v & _ & _ & E)]; unfold votes_by; by rewrite E.
Qed.

(** X1: a call of [record_vote], accepted or rejected, keeps what the
    table enforces (unique primary keys, one row per user and object, no
    negative object id, no user without a row) and leaves no stored value
    other than +1 and -1. *)
Theorem record_vote_keeps_constraints obj user vote w :
  consistent w → unit_votes (rows w) →
  consistent (snd (record_vote obj user vote w))
  ∧ unit_votes (rows (snd (record_vote obj user vote w))).
Proof. apply record_vote_invariant. Qed.

Lemma record_vote_keeps_constraints_witness :
  consistent example_world ∧ unit_votes (rows example_world)
  ∧ consistent (snd (record_vote A (member 1) (-1) example_world))
  ∧ unit_votes (rows (snd (record_vote A (member 1) (-1) example_world))).
Proof.
  assert (Hw : consistent example_world) by (constructor; compute_done).
  assert (Hu : unit_votes (rows example_world)) by compute_done.
  split_and!; [exact Hw|exact Hu|..];
    apply (record_vote_keeps_constraints A (member 1) (-1) example_world Hw Hu).
Defined.

(** X2: whatever calls of [record_vote] are made from the empty table, by
    any users on any objects with any values, and whatever rows the users
    table has, the table meets its constraints, holds only +1 and -1, and
    has at most one row for every user and object. *)
Theorem reachable_tables_are_consistent calls ids :
  consistent (after_calls calls (empty_world ids))
  ∧ unit_votes (rows (after_calls calls (empty_world ids)))
  ∧ ∀ k, (length (votes_by k (rows (after_calls calls (empty_world ids)))) ≤ 1)%nat.
Proof.
  destruct (after_calls_invariant calls (empty_world ids)) as [Hw Hu].
  - apply consistent_empty.
  - constructor.
  - split_and!; [done..|]. intros k. by apply votes_by_at_most_one.
Qed.

(** X3: a call of [record_vote] leaves the rows of every other user and
    of every other object as they were. *)
Theorem record_vote_leaves_other_votes obj user vote w k :
  consistent w → k ≠ key_of obj user →
  votes_by k (rows (snd (record_vote obj user vote w))) = votes_by k (rows w).
Proof.
  intros Hw Hk. destruct (record_vote_rows obj user vote w Hw) as (_ & -> & _).
  destruct (is_valid_vote vote && bool_decide (storable w obj user)); [|done].
  apply after_vote_frame. intros r Hr. congruence.
Qed.

Lemma record_vote_leaves_other_votes_witness :
  consistent example_world ∧ key_of A (member 2) ≠ key_of A (member 1)
  ∧ votes_by (key_of A (member 2)) (rows (snd (record_vote A (member 1) 0 example_world)))
    = votes_by (key_of A (member 2)) (rows example_world).
Proof.
  assert (Hw : consistent example_world) by (constructor; compute_done).
  assert (Hk : key_of A (member 2) ≠ key_of A (member 1)) by discriminate.
  split_and!; [exact Hw|exact Hk|].
  exact (record_vote_leaves_other_votes A (member 1) 0 example_world _ Hw Hk).
Defined.

(** X4: a call of [record_vote] on one object does not change what
    [get_score] returns for any other object. *)
Theorem record_vote_leaves_other_scores obj user vote w obj' :
  consistent w →
  (obj_content_type obj', obj_id obj') ≠ (obj_content_type obj, obj_id obj) →
  fst (get_score obj' (snd (record_vote obj user vote w))) = fst (get_score obj' w).
Proof.
  intros Hw Hne. rewrite !get_score_value.
  destruct (record_vote_rows obj user vote w Hw) as (_ & -> & _).
  destruct (is_valid_vote vote && bool_decide (storable w obj user)); [|done].
  unfold total, votes_on. rewrite after_vote_frame; [done|].
  intros r Hr [Hc Ho]. apply Hne. unfold key_of, vote_key, get_for_model in Hr.
  congruence.
Qed.

Lemma record_vote_leaves_other_scores_witness :
  consistent example_world
  ∧ (obj_content_type B, obj_id B) ≠ (obj_content_type A, obj_id A)
  ∧ fst (get_score B (snd (record_vote A (member 1) 0 example_world)))
    = fst (get_score B example_world).
Proof.
  assert (Hw : consistent example_world) by (constructor; compute_done).
  assert (Hne : (obj_content_type B, obj_id B) ≠ (obj_content_type A, obj_id A))
    by discriminate.
  split_and!; [exact Hw|exact Hne|].
  exact (record_vote_leaves_other_scores A (member 1) 0 example_world B Hw Hne).
Defined.

(** X5: after an accepted call of [record_vote] by an authenticated user
    that has a row in the users table, on an object whose id is not
    negative, [get_for_user] for that user and object returns [None] when
    the value was 0 and otherwise the user's row on the object, holding the
    value just submitted. *)
Theorem record_vote_then_get_for_user obj user vote w :
  consistent w → 0 ≤ obj_id obj → user_id user ∈ users w →
  vote ∈ [1; 0; -1] → is_authenticated user = true →
  ∃ found, fst (get_for_user obj user (snd (record_vote obj user vote w))) = Ok found
    ∧ (vote = 0 → found = None)
    ∧ (vote ≠ 0 → ∃ r, found = Some r ∧ vote_vote r = vote
                       ∧ vote_key r = key_of obj user).
Proof.
  intros Hw Hobj Huser Hvote Hauth.
  assert (Hv : is_valid_vote vote = true) by (by apply bool_decide_eq_true).
  destruct (record_vote_rows obj user vote w Hw) as (Hw' & Hrows & _).
  rewrite Hv, bool_decide_eq_true_2 in Hrows by (by split). cbn [andb] in Hrows.
  rewrite get_for_user_value by done. cbn [fst]. rewrite Hrows.
  rewrite votes_by_after by apply Hw. eexists. split; [reflexivity|].
  destruct (Z.eqb_spec vote 0) as [->|Hnz]; split; [done|done|done|].
  intros _. eexists. split; [reflexivity|].
  destruct (votes_by (key_of obj user) (rows w)) as [|v l] eqn:E; [done|].
  split; [done|]. cbn.
  assert (Hin : v ∈ votes_by (key_of obj user) (rows w)) by (rewrite E; left).
  by apply list_elem_of_filter in Hin as [Hin _].
Qed.

Lemma record_vote_then_get_for_user_witness :
  consistent example_world
  ∧ 0 ≤ obj_id A ∧ user_id (member 1) ∈ users example_world
  ∧ (-1) ∈ [1; 0; -1] ∧ is_authenticated (member 1) = true
  ∧ ∃ found,
      fst (get_for_user A (member 1) (snd (record_vote A (member 1) (-1) example_world)))
      = Ok found
      ∧ ∃ r, found = Some r ∧ vote_vote r = -1 ∧ vote_key r = key_of A (member 1).
Proof.
  assert (Hw : consistent example_world) by (constructor; compute_done).
  assert (Hv : (-1) ∈ [1; 0; -1]) by compute_done.
  assert (Ho : 0 ≤ obj_id A) by compute_done.
  assert (Hm : user_id (member 1) ∈ users example_world) by compute_done.
  split_and!; [exact Hw|exact Ho|exact Hm|exact Hv|reflexivity|].
  destruct (record_vote_then_get_for_user A (member 1) (-1) example_world
              Hw Ho Hm Hv eq_refl)
    as (found & Hfound & _ & Hsome).
  exists found. split; [exact Hfound|]. apply Hsome. discriminate.
Defined.

(** Sum and number of the votes on an object, before and after. *)
Lemma votes_on_without_key u c o (rs : list Vote) :
  Sql.sum_list (vote_vote <$> votes_on c o rs)
  = Sql.sum_list (vote_vote <$> votes_on c o (filter (λ r, vote_key r ≠ (u, c, o)) rs))
    + Sql.sum_list (vote_vote <$> votes_by (u, c, o) rs)
  ∧ length (votes_on c o rs)
    = (length (votes_on c o (filter (λ r, vote_key r ≠ (u, c, o)) rs))
       + length (votes_by (u, c, o) rs))%nat.
Proof.
  unfold votes_on, votes_by, Sql.sum_list.
  induction rs as [|a rs [IHs IHl]]; [done|].
  rewrite !filter_cons.
  destruct (decide (vote_key a ≠ (u, c, o))) as [Hne|Heq]; rewrite ?filter_cons;
    destruct (decide (vote_key a = (u, c, o))) as [E|E]; try tauto;
    destruct (decide (vote_content_type_id a = c ∧ vote_object_id a = o)) as [Ha|Ha];
    cbn; rewrite ?IHs, ?IHl; try (split; lia).
  exfalso. apply Ha. unfold vote_key in E. by injection E.
Qed.

Lemma votes_on_overwritten u c o vote (rs : list Vote) :
  Sql.sum_list (vote_vote <$> votes_on c o
     ((λ r, if decide (vote_key r = (u, c, o)) then set_vote r vote else r) <$> rs))
  = Sql.sum_list (vote_vote <$> votes_on c o rs)
    - Sql.sum_list (vote_vote <$> votes_by (u, c, o) rs)
    + vote * Z.of_nat (length (votes_by (u, c, o) rs))
  ∧ length (votes_on c o
      ((λ r, if decide (vote_key r = (u, c, o)) then set_vote r vote else r) <$> rs))
    = length (votes_on c o rs).
Proof.
  unfold votes_on, votes_by, Sql.sum_list.
  induction rs as [|a rs [IHs IHl]]; [cbn; lia|].
  rewrite fmap_cons, !filter_cons.
  destruct (decide (vote_key a = (u, c, o))) as [E|E].
  - assert (Ha : vote_content_type_id a = c ∧ vote_object_id a = o)
      by (unfold vote_key in E; by injection E).
    rewrite !decide_True by done. cbn. rewrite IHs, IHl. split; lia.
  - destruct (decide (vote_content_type_id a = c ∧ vote_object_id a = o));
      cbn; rewrite ?IHs, ?IHl; split; lia.
Qed.

(** X6: an accepted call of [record_vote], by a user that has a row in the
    users table on an object whose id is not negative, moves the object's
    score by the new value minus the value the user had stored before (0
    if none), and its number of votes by one for a new vote, by minus one
    for a retracted one, and not at all for a changed one. *)
Theorem record_vote_moves_score obj user vote w :
  consistent w → 0 ≤ obj_id obj → user_id user ∈ users w → vote ∈ [1; 0; -1] →
  let k := key_of obj user in
  let c := obj_content_type obj in
  let o := obj_id obj in
  fst (get_score obj (snd (record_vote obj user vote w)))
  = Ok (mkScore
          (Some (total c o (rows w) - stored_vote k (rows w) + vote))
          (Some (Z.of_nat (length (votes_on c o (rows w)))
                 - (match votes_by k (rows w) with [] => 0 | _ :: _ => 1 end)
                 + (if vote =? 0 then 0 else 1)))).
Proof.
  intros Hw Hobj Huser Hvote k c o.
  assert (Hv : is_valid_vote vote = true) by (by apply bool_decide_eq_true).
  destruct (record_vote_rows obj user vote w Hw) as (_ & Hrows & _).
  rewrite Hv, bool_decide_eq_true_2 in Hrows by (by split). cbn [andb] in Hrows.
  rewrite get_score_value, Hrows. fold c o k.
  unfold total, stored_vote, after_vote. do 2 f_equal.
  - (* the sum *)
    destruct (filter_key_cases vote_key (rows w) k (unique_together _ Hw))
      as [E|(v & _ & _ & E)]; fold (votes_by k (rows w)) in E; rewrite E;
      destruct (Z.eqb_spec vote 0) as [->|Hnz].
    + f_equal. lia.
    + unfold votes_on. rewrite filter_app, filter_cons, decide_True, filter_nil by done.
      rewrite fmap_app. unfold Sql.sum_list. rewrite foldr_app. cbn.
      f_equal. induction (vote_vote <$> _) as [|x l IH]; cbn; lia.
    + destruct (votes_on_without_key (user_id user) c o (rows w)) as [Hs _].
      change (user_id user, c, o) with k in Hs. rewrite E in Hs. cbn in Hs. f_equal. lia.
    + destruct (votes_on_overwritten (user_id user) c o vote (rows w)) as [Hs _].
      change (user_id user, c, o) with k in Hs. rewrite E in Hs. cbn in Hs. f_equal. lia.
  - (* the number *)
    destruct (filter_key_cases vote_key (rows w) k (unique_together _ Hw))
      as [E|(v & _ & _ & E)]; fold (votes_by k (rows w)) in E; rewrite E;
      destruct (Z.eqb_spec vote 0) as [->|Hnz].
    + f_equal. lia.
    + unfold votes_on. rewrite filter_app, filter_cons, decide_True, filter_nil by done.
      rewrite length_app. cbn. f_equal. lia.
    + destruct (votes_on_without_key (user_id user) c o (rows w)) as [_ Hl].
      change (user_id user, c, o) with k in Hl. rewrite E in Hl. cbn in Hl. f_equal. lia.
    + destruct (votes_on_overwritten (user_id user) c o vote (rows w)) as [_ Hl].
      change (user_id user, c, o) with k in Hl. rewrite Hl. f_equal. lia.
Qed.

Lemma record_vote_moves_score_witness :
  consistent example_world
  ∧ 0 ≤ obj_id A ∧ user_id (member 1) ∈ users example_world
  ∧ (-1) ∈ [1; 0; -1]
  ∧ fst (get_score A (snd (record_vote A (member 1) (-1) example_world)))
    = Ok (mkScore (Some 3) (Some 5)).
Proof.
  assert (Hw : consistent example_world) by (constructor; compute_done).
  assert (Hv : (-1) ∈ [1; 0; -1]) by compute_done.
  assert (Ho : 0 ≤ obj_id A) by compute_done.
  assert (Hm : user_id (member 1) ∈ users example_world) by compute_done.
  split_and!; [exact Hw|exact Ho|exact Hm|exact Hv|].
  exact (record_vote_moves_score A (member 1) (-1) example_world Hw Ho Hm Hv).
Defined.

(** X7: for a user that has a row in the users table and an object whose
    id is not negative, submitting the same accepted value twice is the
    same as submitting it once: the second call succeeds and leaves the
    rows and the sequence as the first call left them. *)
Theorem record_vote_twice obj user vote w :
  consistent w → 0 ≤ obj_id obj → user_id user ∈ users w → vote ∈ [1; 0; -1] →
  let once := snd (record_vote obj user vote w) in
  let twice := snd (record_vote obj user vote once) in
  fst (record_vote obj user vote once) = Ok tt
  ∧ rows twice = rows once ∧ next_pk twice = next_pk once.
Proof.
  intros Hw Hobj Huser Hvote once twice. subst once twice.
  assert (Hv : is_valid_vote vote = true) by (by apply bool_decide_eq_true).
  destruct (record_vote_step obj user vote w Hw Hv (conj Hobj Huser))
    as (w1 & -> & Hw1 & Hrows & _ & Husers).
  cbn [snd].
  assert (Hs1 : storable w1 obj user) by (unfold storable; by rewrite Husers).
  destruct (record_vote_step obj user vote w1 Hw1 Hv Hs1)
    as (w2 & -> & _ & Hrows2 & Hpk2 & _).
  cbn [fst snd]. split; [done|].
  assert (Hby : votes_by (key_of obj user) (rows w1)
                = if vote =? 0 then []
                  else [match votes_by (key_of obj user) (rows w) with
                        | [] => mkVote (next_pk w) (key_of obj user).1.1
                                  (key_of obj user).1.2 (key_of obj user).2 vote
                        | v :: _ => set_vote v vote
                        end]).
  { rewrite Hrows. apply votes_by_after, Hw. }
  rewrite Hrows2, Hpk2. unfold after_vote, after_vote_pk. rewrite Hby.
  destruct (Z.eqb_spec vote 0) as [->|Hnz]; [done|]. split; [|done].
  rewrite <- (list_fmap_id (rows w1)) at 2. apply list_fmap_ext.
  intros i r Hr. apply list_elem_of_lookup_2 in Hr.
  destruct (decide (vote_key r = key_of obj user)) as [E|E]; [|done].
  assert (Hin : r ∈ votes_by (key_of obj user) (rows w1)).
  { apply list_elem_of_filter. done. }
  rewrite Hby in Hin. apply list_elem_of_singleton in Hin. rewrite Hin.
  by destruct (votes_by _ (rows w)).
Qed.

Lemma record_vote_twice_witness :
  consistent example_world
  ∧ 0 ≤ obj_id C ∧ user_id (member 3) ∈ users example_world
  ∧ 1 ∈ [1; 0; -1]
  ∧ fst (record_vote C (member 3) 1 (snd (record_vote C (member 3) 1 example_world)))
    = Ok tt
  ∧ rows (snd (record_vote C (member 3) 1 (snd (record_vote C (member 3) 1 example_world))))
    = rows (snd (record_vote C (member 3) 1 example_world))
  ∧ next_pk (snd (record_vote C (member 3) 1
                    (snd (record_vote C (member 3) 1 example_world))))
    = next_pk (snd (record_vote C (member 3) 1 example_world)).
Proof.
  assert (Hw : consistent example_world) by (constructor; compute_done).
  assert (Hv : 1 ∈ [1; 0; -1]) by compute_done.
  assert (Ho : 0 ≤ obj_id C) by compute_done.
  assert (Hm : user_id (member 3) ∈ users example_world) by compute_done.
  split_and!; [exact Hw|exact Ho|exact Hm|exact Hv|..];
    apply (record_vote_twice C (member 3) 1 example_world Hw Ho Hm Hv).
Defined.

Lemma up_or_down (r : Vote) :
  vote_vote r = 1 ∨ vote_vote r = -1 → xorb (is_upvote r) (is_downvote r) = true.
Proof. unfold is_upvote, is_downvote. intros [-> | ->]; reflexivity. Qed.

(** X8: every row that calls of [record_vote] from the empty table have
    left, whatever rows the users table has, is an up-vote or a down-vote,
    and not both: exactly one of [is_upvote] and [is_downvote] holds of
    it. *)
Theorem stored_votes_are_up_or_down calls ids r :
  r ∈ rows (after_calls calls (empty_world ids)) →
  xorb (is_upvote r) (is_downvote r) = true.
Proof.
  intros Hr. apply up_or_down.
  destruct (after_calls_invariant calls (empty_world ids)) as [_ Hu];
    [apply consistent_empty|constructor|].
  unfold unit_votes in Hu. rewrite Forall_forall in Hu. by apply Hu.
Qed.

Lemma stored_votes_are_up_or_down_witness :
  mkVote 1 7 3 1 (-1)
  ∈ rows (after_calls [(A, member 7, 1); (A, member 7, -1)] (empty_world [7]))
  ∧ xorb (is_upvote (mkVote 1 7 3 1 (-1))) (is_downvote (mkVote 1 7 3 1 (-1))) = true.
Proof.
  assert (Hr : mkVote 1 7 3 1 (-1)
               ∈ rows (after_calls [(A, member 7, 1); (A, member 7, -1)] (empty_world [7])))
    by (vm_compute; left).
  split; [exact Hr|].
  exact (stored_votes_are_up_or_down [(A, member 7, 1); (A, member 7, -1)] [7] _ Hr).
Defined.

Lemma sum_of_unit_votes (l : list Vote) :
  unit_votes l →
  Sql.sum_list (vote_vote <$> l) = upvotes l - downvotes l
  ∧ Z.of_nat (length l) = upvotes l + downvotes l.
Proof.
  unfold unit_votes, upvotes, downvotes, Sql.sum_list.
  induction 1 as [|r l Hr Hl [IHs IHl]]; [done|].
  rewrite !filter_cons. cbn [fmap list_fmap foldr length].
  destruct Hr as [E|E]; rewrite E.
  - rewrite (decide_True (P := is_upvote r = true)) by (unfold is_upvote; by rewrite E).
    rewrite (decide_False (P := is_downvote r = true))
      by (unfold is_downvote; by rewrite E).
    cbn [length]. split; lia.
  - rewrite (decide_False (P := is_upvote r = true)) by (unfold is_upvote; by rewrite E).
    rewrite (decide_True (P := is_downvote r = true))
      by (unfold is_downvote; by rewrite E).
    cbn [length]. split; lia.
Qed.

(** X9: on a table that holds only +1 and -1, the score [get_score]
    returns is the number of up-votes on the object minus the number of
    its down-votes, num_votes is their sum, and so the score lies between
    -num_votes and num_votes. *)
Theorem get_score_counts_up_and_down obj w :
  unit_votes (rows w) →
  let votes := votes_on (obj_content_type obj) (obj_id obj) (rows w) in
  fst (get_score obj w)
  = Ok (mkScore (Some (upvotes votes - downvotes votes))
                (Some (upvotes votes + downvotes votes)))
  ∧ - (upvotes votes + downvotes votes) ≤ upvotes votes - downvotes votes
    ≤ upvotes votes + downvotes votes.
Proof.
  intros Hu votes. rewrite get_score_value. fold votes.
  assert (Hv : unit_votes votes).
  { unfold unit_votes in *. rewrite Forall_forall in *.
    intros r [_ Hr]%list_elem_of_filter. by apply Hu. }
  destruct (sum_of_unit_votes votes Hv) as [Hs Hl]. unfold total. fold votes.
  rewrite Hs, Hl. split; [done|]. unfold upvotes, downvotes. lia.
Qed.

Lemma get_score_counts_up_and_down_witness :
  unit_votes (rows example_world)
  ∧ fst (get_score D example_world) = Ok (mkScore (Some 0) (Some 2)).
Proof.
  assert (Hu : unit_votes (rows example_world)) by compute_done.
  split; [exact Hu|].
  exact (proj1 (get_score_counts_up_and_down D example_world Hu)).
Defined.

(** ** More on the lookups *)

(** X10: for every object and table [get_score] sends one statement, does
    not fail, and returns the sum of the votes stored on the object as
    score (0 when there are none) and their number as num_votes. *)
Theorem get_score_sum_and_count obj w :
  get_score obj w
  = (Ok (mkScore (Some (total (obj_content_type obj) (obj_id obj) (rows w)))
                 (Some (Z.of_nat (length (votes_on (obj_content_type obj) (obj_id obj)
                                            (rows w)))))),
     logged w (Execute get_score_sql [Some (obj_content_type obj); Some (obj_id obj)])).
Proof. rewrite get_score_spec. by rewrite or_sum_total. Qed.

(** X11: for an authenticated user, on a table that meets its constraints,
    [get_for_user] does not fail; it returns a row exactly when that row
    is the stored vote of the user on the object, and [None] exactly when
    the user has no vote on it. *)
Theorem get_for_user_finds_vote obj user w :
  consistent w → is_authenticated user = true →
  ∃ found, fst (get_for_user obj user w) = Ok found
    ∧ (∀ r, found = Some r ↔ r ∈ rows w ∧ vote_key r = key_of obj user)
    ∧ (found = None ↔ ∀ r, r ∈ rows w → vote_key r ≠ key_of obj user).
Proof.
  intros Hw Hauth. rewrite get_for_user_value by done. cbn [fst].
  eexists. split; [reflexivity|].
  destruct (filter_key_cases vote_key (rows w) (key_of obj user) (unique_together _ Hw))
    as [E|(v & Hv & Hk & E)]; unfold votes_by; rewrite E; cbn [head]; split.
  - intros r. split; [done|]. intros [Hr Hkr].
    exfalso. by eapply (filter_nil_not_elem_of _ _ r).
  - split; [|done]. intros _ r Hr Hkr. by eapply (filter_nil_not_elem_of _ _ r).
  - intros r. split.
    + by intros [= <-].
    + intros [Hr Hkr]. f_equal.
      apply (NoDup_fmap_inj_on vote_key (rows w)); [apply Hw|done..|congruence].
  - split; [done|]. intros Hnone. exfalso. by apply (Hnone v).
Qed.

Lemma get_for_user_finds_vote_witness :
  consistent example_world ∧ is_authenticated (member 2) = true
  ∧ ∃ found, fst (get_for_user B (member 2) example_world) = Ok found
      ∧ found = Some (mkVote 7 2 3 2 (-1)).
Proof.
  assert (Hw : consistent example_world) by (constructor; compute_done).
  split_and!; [exact Hw|reflexivity|].
  destruct (get_for_user_finds_vote B (member 2) example_world Hw eq_refl)
    as (found & Hfound & Hsome & _).
  exists found. split; [exact Hfound|]. apply Hsome. split; [|reflexivity].
  vm_compute. do 6 right. left.
Defined.

(** The rows the bulk lookup holds under one id. *)
Lemma votes_of_user_by_id c ids u k (rs : list Vote) :
  k ∈ ids →
  filter (λ v, vote_object_id v = k) (votes_of_user c ids u rs) = votes_by (u, c, k) rs.
Proof.
  intros Hk. unfold votes_of_user, votes_by. rewrite list_filter_filter.
  apply list_filter_iff. intros r. unfold vote_key. split.
  - intros (Ho & Hc & _ & Hu). congruence.
  - intros [= Hu Hc Ho]. split_and!; [done..| |done]. by rewrite Ho.
Qed.

(** X12: for an authenticated user, a table that meets its constraints and
    a listed object of the first object's kind, what
    [get_for_user_in_bulk] holds under the object's id ([None] for a
    missing key) is what [get_for_user] returns for that object. *)
Theorem bulk_votes_agree_with_single first rest user w obj :
  consistent w → is_authenticated user = true →
  obj ∈ first :: rest → obj_content_type obj = obj_content_type first →
  ∃ d, fst (get_for_user_in_bulk (first :: rest) user w) = Ok d
    ∧ fst (get_for_user obj user w) = Ok (d !! obj_id obj).
Proof.
  intros Hw Hauth Hobj Hkind. rewrite get_for_user_in_bulk_spec.
  eexists. split; [reflexivity|]. rewrite get_for_user_value by done. cbn [fst].
  rewrite (dict_lookup vote_object_id (λ v, v)).
  rewrite votes_of_user_by_id by (by apply list_elem_of_fmap_2).
  unfold key_of, get_for_model. rewrite Hkind. f_equal.
  destruct (filter_key_cases vote_key (rows w)
              (user_id user, obj_content_type first, obj_id obj) (unique_together _ Hw))
    as [E|(v & _ & _ & E)]; unfold votes_by; by rewrite E.
Qed.

Lemma bulk_votes_agree_with_single_witness :
  consistent example_world ∧ is_authenticated (member 2) = true
  ∧ B ∈ [A; B; C] ∧ obj_content_type B = obj_content_type A
  ∧ ∃ d, fst (get_for_user_in_bulk [A; B; C] (member 2) example_world) = Ok d
      ∧ fst (get_for_user B (member 2) example_world) = Ok (d !! obj_id B).
Proof.
  assert (Hw : consistent example_world) by (constructor; compute_done).
  assert (Hin : B ∈ [A; B; C]) by (right; left).
  split_and!; [exact Hw|reflexivity|exact Hin|reflexivity|].
  exact (bulk_votes_agree_with_single A [B; C] (member 2) example_world B
           Hw eq_refl Hin eq_refl).
Defined.

(** X13: every entry of [get_for_user_in_bulk] is a stored row of the
    given user, of the first object's kind, on the object whose id is the
    key, and that id is the id of a listed object. *)
Theorem bulk_votes_belong_to_user first rest user w :
  ∃ d, fst (get_for_user_in_bulk (first :: rest) user w) = Ok d
    ∧ ∀ k vote, d !! k = Some vote →
        vote ∈ rows w
        ∧ vote_key vote = (user_id user, obj_content_type first, k)
        ∧ ∃ obj, obj ∈ first :: rest ∧ obj_id obj = k.
Proof.
  rewrite get_for_user_in_bulk_spec. eexists. split; [reflexivity|].
  intros k vote Hk. rewrite (dict_lookup vote_object_id (λ v, v)) in Hk.
  destruct (last _) as [v|] eqn:El; [|done]. cbn in Hk. injection Hk as ->.
  apply last_Some_elem_of, list_elem_of_filter in El as [Ho Hv].
  apply list_elem_of_filter in Hv as [(Hc & Hin & Hu) Hv].
  split_and!; [done|unfold vote_key; congruence|].
  apply list_elem_of_fmap in Hin as (obj & Hid & Hobj). exists obj. split; congruence.
Qed.

(** X14: a listed object without votes is not a key of what
    [get_scores_in_bulk] returns, although [get_score] returns score 0 and
    num_votes 0 for it. *)
Theorem bulk_scores_omit_unvoted first rest w obj :
  obj ∈ first :: rest → obj_content_type obj = obj_content_type first →
  votes_on (obj_content_type obj) (obj_id obj) (rows w) = [] →
  ∃ d, fst (get_scores_in_bulk (first :: rest) w) = Ok d
    ∧ d !! Some (obj_id obj) = None
    ∧ fst (get_score obj w) = Ok (mkScore (Some 0) (Some 0)).
Proof.
  intros Hobj Hkind Hnone. rewrite get_scores_in_bulk_spec.
  eexists. split; [reflexivity|]. split.
  - rewrite bulk_scores_lookup, decide_False; [done|].
    intros [_ Hne]. apply Hne. by rewrite <- Hkind.
  - rewrite get_score_spec. cbn [fst]. by rewrite Hnone.
Qed.

Lemma bulk_scores_omit_unvoted_witness :
  mkObj 3 9 ∈ [A; mkObj 3 9]
  ∧ obj_content_type (mkObj 3 9) = obj_content_type A
  ∧ votes_on 3 9 (rows example_world) = []
  ∧ ∃ d, fst (get_scores_in_bulk [A; mkObj 3 9] example_world) = Ok d
      ∧ d !! Some 9 = None
      ∧ fst (get_score (mkObj 3 9) example_world) = Ok (mkScore (Some 0) (Some 0)).
Proof.
  assert (Hin : mkObj 3 9 ∈ [A; mkObj 3 9]) by (right; left).
  split_and!; [exact Hin|reflexivity|reflexivity|].
  exact (bulk_scores_omit_unvoted A [mkObj 3 9] example_world (mkObj 3 9)
           Hin eq_refl eq_refl).
Defined.

(** X15: every entry of [get_scores_in_bulk] belongs to an object with at
    least one vote: its key is an id, its score is the sum of the votes
    stored under the first object's kind and that id, and its num_votes
    is their number, which is at least 1. *)
Theorem bulk_entries_have_votes first rest w :
  ∃ d, fst (get_scores_in_bulk (first :: rest) w) = Ok d
    ∧ ∀ k entry, d !! k = Some entry →
        ∃ x, k = Some x
          ∧ score entry = Some (total (obj_content_type first) x (rows w))
          ∧ num_votes entry
            = Some (Z.of_nat (length (votes_on (obj_content_type first) x (rows w))))
          ∧ (1 ≤ length (votes_on (obj_content_type first) x (rows w)))%nat.
Proof.
  rewrite get_scores_in_bulk_spec. eexists. split; [reflexivity|].
  intros [x|] entry Hk; [|by rewrite bulk_scores_lookup_None in Hk].
  rewrite bulk_scores_lookup in Hk.
  destruct (decide _) as [[_ Hne]|]; [|done]. injection Hk as <-.
  exists x. unfold score_of, total. cbn.
  destruct (votes_on _ _ _) as [|v l]; [done|]. split_and!; [done..|cbn; lia].
Qed.

(** X16: what [get_scores_in_bulk] returns depends only on the kind of
    the first object and on the set of ids listed: lists that agree on
    these, whatever their order and repetitions, give the same
    dictionary. *)
Theorem bulk_scores_ignore_order first rest first' rest' w :
  obj_content_type first = obj_content_type first' →
  (∀ x, x ∈ obj_id <$> first :: rest ↔ x ∈ obj_id <$> first' :: rest') →
  fst (get_scores_in_bulk (first :: rest) w) = fst (get_scores_in_bulk (first' :: rest') w).
Proof.
  intros Hkind Hids. rewrite !get_scores_in_bulk_spec. cbn [fst]. f_equal.
  apply map_eq. intros [x|].
  - rewrite !bulk_scores_lookup, Hkind.
    destruct (decide (x ∈ obj_id <$> first :: rest ∧ _)) as [H1|H1];
      destruct (decide (x ∈ obj_id <$> first' :: rest' ∧ _)) as [H2|H2];
      try done; exfalso; rewrite Hids in H1; tauto.
  - by rewrite !bulk_scores_lookup_None.
Qed.

Lemma bulk_scores_ignore_order_witness :
  obj_content_type A = obj_content_type B
  ∧ (∀ x, x ∈ obj_id <$> [A; B; B] ↔ x ∈ obj_id <$> [B; A])
  ∧ fst (get_scores_in_bulk [A; B; B] example_world)
    = fst (get_scores_in_bulk [B; A] example_world).
Proof.
  assert (Hids : ∀ x, x ∈ obj_id <$> [A; B; B] ↔ x ∈ obj_id <$> [B; A]).
  { intros x. cbn. rewrite !elem_of_cons, elem_of_nil. tauto. }
  split_and!; [reflexivity|exact Hids|].
  exact (bulk_scores_ignore_order A [B; B] B [A] example_world eq_refl Hids).
Defined.

(** X17: none of the lookups writes: after [get_score],
    [get_scores_in_bulk], [get_top], [get_bottom], [get_for_user] and
    [get_for_user_in_bulk], whether they return or raise, the rows and the
    sequence of the table are what they were. *)
Theorem lookups_do_not_write in_bulk obj objects user Model limit reversed w :
  same_table (snd (get_score obj w)) w
  ∧ same_table (snd (get_scores_in_bulk objects w)) w
  ∧ same_table (snd (get_top in_bulk Model limit reversed w)) w
  ∧ same_table (snd (get_bottom in_bulk Model limit w)) w
  ∧ same_table (snd (get_for_user obj user w)) w
  ∧ same_table (snd (get_for_user_in_bulk objects user w)) w.
Proof.
  split_and!.
  - by rewrite get_score_spec.
  - destruct objects as [|first rest]; [done|]. by rewrite get_scores_in_bulk_spec.
  - by rewrite get_top_fails.
  - unfold get_bottom. by rewrite get_top_fails.
  - unfold get_for_user. destruct (is_authenticated user); [|done]. cbn [negb].
    rewrite try_except_eq, bindM_eq, orm_get_eq.
    by destruct (votes_by _ _) as [|v [|v' l]].
  - destruct objects as [|first rest]; [done|]. by rewrite get_for_user_in_bulk_spec.
Qed.

(** X18: the loop that ends [get_top] keeps the order of the results: the
    scores it yields are a subsequence of the scores of the results, each
    yielded pair comes from a result whose id the resolver found, and
    when the resolver found every id no score is dropped. *)
Theorem resolved_keeps_found objects results :
  snd <$> resolved objects results `sublist_of` snd <$> results
  ∧ (∀ o score, (o, score) ∈ resolved objects results →
       ∃ id, (id, score) ∈ results ∧ objects !! id = Some o)
  ∧ ((∀ id, id ∈ fst <$> results → is_Some (objects !! id)) →
     snd <$> resolved objects results = snd <$> results).
Proof.
  split_and!.
  - induction results as [|[id score] rest IH]; [done|].
    cbn. destruct (objects !! id); cbn; [by apply sublist_skip|by apply sublist_cons].
  - intros o score. apply resolved_elem.
  - induction results as [|[id score] rest IH]; [done|]. intros Hall.
    cbn. destruct (Hall id) as [o Ho]; [left|]. rewrite Ho. cbn. f_equal.
    apply IH. intros id' Hid'. apply Hall. by right.
Qed.

(** X19: on a table that meets its constraints, an accepted call for an
    object whose id is negative, or for a user without a row in the users
    table, stores nothing: with a value other than 0 it raises
    [IntegrityError], the table refusing the new row; with 0 it returns,
    having found nothing to delete. The rows are as they were. *)
Theorem record_vote_refused obj user vote w :
  consistent w → vote ∈ [1; 0; -1] → obj_id obj < 0 ∨ user_id user ∉ users w →
  ∃ w', record_vote obj user vote w
        = (if vote =? 0 then Ok tt else Raise IntegrityError, w')
        ∧ rows w' = rows w.
Proof.
  intros Hw Hvote Hbad.
  assert (Hv : is_valid_vote vote = true) by (by apply bool_decide_eq_true).
  assert (Hs : ¬ storable w obj user).
  { intros [Ho Hu]. destruct Hbad as [Hneg|Hmissing]; [lia|done]. }
  destruct (record_vote_refused_step obj user vote w Hw Hv Hs)
    as (w' & Hrun & _ & Hrows & _).
  by exists w'.
Qed.

Lemma record_vote_refused_witness :
  consistent example_world ∧ 1 ∈ [1; 0; -1]
  ∧ (obj_id (mkObj 3 (-5)) < 0 ∨ user_id (member 1) ∉ users example_world)
  ∧ (obj_id A < 0 ∨ user_id (member 99) ∉ users example_world)
  ∧ (∃ w', record_vote (mkObj 3 (-5)) (member 1) 1 example_world
           = (Raise IntegrityError, w')
           ∧ rows w' = rows example_world)
  ∧ (∃ w', record_vote A (member 99) 1 example_world = (Raise IntegrityError, w')
           ∧ rows w' = rows example_world).
Proof.
  assert (Hw : consistent example_world) by (constructor; compute_done).
  assert (Hv : 1 ∈ [1; 0; -1]) by compute_done.
  assert (Ho : obj_id (mkObj 3 (-5)) < 0 ∨ user_id (member 1) ∉ users example_world)
    by (left; compute_done).
  assert (Hu : obj_id A < 0 ∨ user_id (member 99) ∉ users example_world)
    by (right; compute_done).
  split_and!; [exact Hw|exact Hv|exact Ho|exact Hu|..].
  - exact (record_vote_refused (mkObj 3 (-5)) (member 1) 1 example_world Hw Hv Ho).
  - exact (record_vote_refused A (member 99) 1 example_world Hw Hv Hu).
Defined.
